(** * Znicz kernels: a shallow embedding of the inference and training kernels

    Sources embedded here:
    - [libZnicz/src/all2all.cc]            (All2All unit: constructor,
                                            SetParameter, Execute)
    - [ocl/gradient_descent_pooling.cl]    (gd_max_pooling, gd_avg_pooling,
                                            weights_update)
    - [cuda/weights_update.store_output.cu] (the gradient step [gd])
    - [cuda/denormalization.jcu]           (the denormalize template)

    Numbers.  The kernels compute on [dtype] (a fixed-width float chosen at
    build time) and All2All on [float].  Rounding is not part of any property
    stated below, so [dtype] is idealised as the field of rationals [Qc]
    (Leibniz equality, computable).  C [int] and [size_t] values are carried
    as [Z] and [nat], the index arithmetic being taken to stay inside the
    machine range; integer [/] and [%] are [Z.quot] and [Z.rem].  Every index
    that reaches a buffer is range-checked and an access outside a buffer
    makes the operation fail ([None]).  The work-items of a launch are run
    one after the other.  A sum accumulated in one cell is the exact sum:
    how a float build rounds it, and in which order the adds arrive, is
    outside this model, so the properties on schedules below are stated
    only where every cell receives at most one store or one add, or where
    the surviving value is left open. *)

From Stdlib Require Import QArith Qcanon ZArith Lia.
From stdpp Require Import numbers strings list gmap.

Local Open Scope Qc_scope.

Abbreviation dtype := Qc.

(** Closes a decidable closed goal by evaluating its decision procedure. *)
Ltac by_computation := apply (bool_decide_unpack _); vm_compute; exact I.

(** ** Buffers *)

Module Buffer.

(** Sum of all elements of a buffer. *)
Definition total (b : list dtype) : dtype := foldr Qcplus 0 b.

(** Read with a signed index, as the kernels do ([int] indices). *)
Definition get {A} (b : list A) (i : Z) : option A :=
  if decide (0 ≤ i)%Z then b !! Z.to_nat i else None.

(** [b[i] = v]; fails outside the buffer. *)
Definition set (b : list dtype) (i : Z) (v : dtype) : option (list dtype) :=
  if decide (0 ≤ i < Z.of_nat (length b))%Z
  then Some (<[Z.to_nat i := v]> b) else None.

(** [ATOM_ADD(&b[i], v)]: read-modify-write of one cell. *)
Definition atom_add (b : list dtype) (i : Z) (v : dtype) : option (list dtype) :=
  old ← get b i; set b i (old + v).

(** [n] cells holding zero. *)
Definition zeros (n : nat) : list dtype := replicate n 0.

End Buffer.

(** ** The SIMD matrix helpers used by All2All *)

Module Simd.

(** [sum_upto n f] is [f 0 + ... + f (n-1)], accumulated from the left. *)
Fixpoint sum_upto (n : nat) (f : nat → option dtype) : option dtype :=
  match n with
  | O => Some 0
  | S k => s ← sum_upto k f; t ← f k; Some (s + t)
  end.

(** Modelled from the spec: [simd/matrix.h] is not among the sources.  The
    spec fixes the convention of the one call made by All2All: "weights
    stored as (input_count rows x output_count columns), transposed multiply
    treats the weight matrix as (output_count x input_count) against the
    input column vector".  With the arguments in call order, [m1] is a
    [rows1 x cols1] matrix, [m2] a [rows2 x cols2] matrix (both row-major),
    and the result is [m2^T * m1], a [cols2 x cols1] matrix. *)
Definition matrix_multiply_transposed (m1 m2 : list dtype)
    (rows1 cols1 rows2 cols2 : nat) : option (list dtype) :=
  mapM (λ idx,
          let j := (idx / cols1)%nat in
          let i := (idx mod cols1)%nat in
          sum_upto rows1 (λ k,
            a ← m2 !! (k * cols2 + j)%nat;
            b ← m1 !! (k * cols1 + i)%nat;
            Some (a * b)))
       (seq 0 (cols2 * cols1)).

(** Modelled from the spec: "matrix add (broadcast bias)"; elementwise sum
    of two [w x h] matrices. *)
Definition matrix_add (m1 m2 : list dtype) (w h : nat) : option (list dtype) :=
  mapM (λ i, a ← m1 !! i; b ← m2 !! i; Some (a + b)) (seq 0 (w * h)).

End Simd.

(** ** The All2All unit ([all2all.cc]) *)

Module Znicz.

(** Modelled from the spec: the value handed to [SetParameter] is a
    [std::shared_ptr<const void>]; the spec gives it "a runtime type
    discriminator checked against the binding's expected type".  The two
    payload types are those of the four fields the constructor binds. *)
Inductive Value :=
  | VFloatArray (a : list dtype)
  | VSize (n : nat).

Inductive Error := TypeMismatch.

(** The fields of the unit that setters write. *)
Record Fields := mkFields {
  weights_ : list dtype;
  bias_ : list dtype;
  weights_length_ : nat;
  bias_length_ : nat
}.

(** The address captured by a setter ([&weights_], [&bias_], ...). *)
Inductive FieldRef := Ref_weights | Ref_bias | Ref_weights_length | Ref_bias_length.

(** A setter: the closure stored under a parameter name. *)
Abbreviation Setter := (Value → Fields → Error + Fields).

Module Attribute.

(** Modelled from the spec: [attribute.h] is not among the sources.
    "RegisterSetter(name, targetField) records a function that, given an
    opaque value handle, writes into targetField after a type check", and the
    setter "fails with a TypeMismatch error if the opaque value's dynamic
    type does not match the field's expected type". *)
Definition GetSetter (target : FieldRef) : Setter := λ value s,
  match target, value with
  | Ref_weights, VFloatArray a =>
      inr (mkFields a (bias_ s) (weights_length_ s) (bias_length_ s))
  | Ref_bias, VFloatArray a =>
      inr (mkFields (weights_ s) a (weights_length_ s) (bias_length_ s))
  | Ref_weights_length, VSize n =>
      inr (mkFields (weights_ s) (bias_ s) n (bias_length_ s))
  | Ref_bias_length, VSize n =>
      inr (mkFields (weights_ s) (bias_ s) (weights_length_ s) n)
  | _, _ => inl TypeMismatch
  end.

(** The payload type a binding expects. *)
Definition expects (target : FieldRef) (value : Value) : bool :=
  match target, value with
  | (Ref_weights | Ref_bias), VFloatArray _ => true
  | (Ref_weights_length | Ref_bias_length), VSize _ => true
  | _, _ => false
  end.

End Attribute.

Record All2All := mkAll2All {
  setters_ : gmap string Setter;
  fields : Fields;
  (** Modelled from the spec: [ApplyActivationFunction] is virtual and its
      overrides are not among the sources; the spec makes it "a
      unit-configured function (identity, tanh, etc.) applied elementwise". *)
  activation : dtype → dtype
}.

(** [All2All::All2All()] *)
Definition All2All_new (act : dtype → dtype) : All2All :=
  mkAll2All
    (<["weights" := Attribute.GetSetter Ref_weights]>
     (<["bias" := Attribute.GetSetter Ref_bias]>
      (<["weights_length" := Attribute.GetSetter Ref_weights_length]>
       (<["bias_length" := Attribute.GetSetter Ref_bias_length]> ∅))))
    (mkFields [] [] 0 0)
    act.

(** [All2All::SetParameter] *)
Definition SetParameter (name : string) (value : Value) (u : All2All)
    : Error + All2All :=
  match setters_ u !! name with
  | Some setter =>
      match setter value (fields u) with
      | inr s => inr (mkAll2All (setters_ u) s (activation u))
      | inl e => inl e
      end
  | None => inr u
  end.

(** Modelled from the spec: [InputCount] and [OutputCount] are declared in
    [all2all.h], which is not among the sources.  The spec has the bias of
    length [output_count] and the weights of shape
    [input_count x output_count]. *)
Definition OutputCount (u : All2All) : nat := bias_length_ (fields u).
Definition InputCount (u : All2All) : nat :=
  (weights_length_ (fields u) / bias_length_ (fields u))%nat.

Definition ApplyActivationFunction (u : All2All) (out : list dtype) (n : nat)
    : list dtype :=
  (activation u <$> take n out) ++ drop n out.

(** [All2All::Execute(in, out)].  The method is [const]; the unit is threaded
    through all the same, so that what it leaves behind can be stated.  The
    second component is the [output_count] cells written through [out]. *)
Definition Execute (u : All2All) (in_ : list dtype)
    : option (All2All * list dtype) :=
  let input_count := InputCount u in
  let output_count := OutputCount u in
  tmp ← Simd.matrix_multiply_transposed in_ (weights_ (fields u))
          input_count 1 input_count output_count;
  out ← Simd.matrix_add tmp (bias_ (fields u)) 1 output_count;
  Some (u, ApplyActivationFunction u out output_count).

(** The naive reference of the spec: [W^T x + b] for [W] of shape [m x n]
    (row-major), [b] of length [n], [x] of length [m]. *)
Definition mat (W : list dtype) (cols r c : nat) : dtype :=
  default 0 (W !! (r * cols + c)%nat).

Fixpoint dot_column (W x : list dtype) (n j m : nat) : dtype :=
  match m with
  | O => 0
  | S k => dot_column W x n j k + mat W n k j * default 0 (x !! k)
  end.

Definition naive_reference (W b x : list dtype) (m n : nat) : list dtype :=
  (λ j, dot_column W x n j m + default 0 (b !! j)) <$> seq 0 n.

End Znicz.

(** ** All2All over shared buffers

    [Execute] receives raw pointers and the unit holds its weights and bias
    behind shared pointers: whether the caller's [out] is one of the unit's
    own buffers is not visible in a model that passes values.  Here a
    pointer is the name of a buffer of the heap and two pointers alias when
    they are equal. *)

Module Shared.

(** The members of the unit: two shared pointers, two lengths, and the
    activation of its dynamic type. *)
Record All2All := mkAll2All {
  weights_ : nat;
  bias_ : nat;
  weights_length_ : nat;
  bias_length_ : nat;
  activation : dtype → dtype
}.

(** Modelled from the spec: as [Znicz.InputCount] and [Znicz.OutputCount]. *)
Definition OutputCount (u : All2All) : nat := bias_length_ u.
Definition InputCount (u : All2All) : nat :=
  (weights_length_ u / bias_length_ u)%nat.

(** A store of [v] through the pointer [p]: the first cells of the buffer. *)
Definition write (h : gmap nat (list dtype)) (p : nat) (v : list dtype)
    : option (gmap nat (list dtype)) :=
  old ← h !! p;
  if decide (length v ≤ length old)%nat
  then Some (<[p := v ++ drop (length v) old]> h) else None.

(** Modelled from the spec: [Simd.matrix_multiply_transposed] reading its
    operands through [m1] and [m2] and storing through [res], its last
    argument. *)
Definition matrix_multiply_transposed (h : gmap nat (list dtype)) (m1 m2 : nat)
    (rows1 cols1 rows2 cols2 : nat) (res : nat) : option (gmap nat (list dtype)) :=
  a ← h !! m1; b ← h !! m2;
  v ← Simd.matrix_multiply_transposed a b rows1 cols1 rows2 cols2;
  write h res v.

(** Modelled from the spec: [Simd.matrix_add], likewise. *)
Definition matrix_add (h : gmap nat (list dtype)) (m1 m2 : nat) (w hh : nat)
    (res : nat) : option (gmap nat (list dtype)) :=
  a ← h !! m1; b ← h !! m2;
  v ← Simd.matrix_add a b w hh;
  write h res v.

(** Modelled from the spec: the activation applied in place to the first
    [n] cells behind [out]. *)
Definition ApplyActivationFunction (u : All2All) (h : gmap nat (list dtype))
    (out : nat) (n : nat) : option (gmap nat (list dtype)) :=
  old ← h !! out;
  if decide (n ≤ length old)%nat
  then Some (<[out := (activation u <$> take n old) ++ drop n old]> h) else None.

(** [mallocf(n)]: a buffer nobody else points to.  Its cells are written
    before they are read; they start as zeros here. *)
Definition mallocf (h : gmap nat (list dtype)) (n : nat)
    : nat * gmap nat (list dtype) :=
  let p := fresh (dom h) in (p, <[p := Buffer.zeros n]> h).

(** [All2All::Execute(in, out)]; [tmp] is released on return. *)
Definition Execute (u : All2All) (in_ out : nat) (h : gmap nat (list dtype))
    : option (gmap nat (list dtype)) :=
  let input_count := InputCount u in
  let output_count := OutputCount u in
  let '(tmp, h0) := mallocf h output_count in
  h1 ← matrix_multiply_transposed h0 in_ (weights_ u) input_count
          1 input_count output_count tmp;
  h2 ← matrix_add h1 tmp (bias_ u) 1 output_count out;
  h3 ← ApplyActivationFunction u h2 out output_count;
  Some (delete tmp h3).

(** The unit as a value: what its pointers hold in [h]. *)
Definition load (u : All2All) (h : gmap nat (list dtype)) : option Znicz.All2All :=
  W ← h !! weights_ u; b ← h !! bias_ u;
  Some (Znicz.mkAll2All ∅ (Znicz.mkFields W b (weights_length_ u) (bias_length_ u))
          (activation u)).

End Shared.

(** ** Pooling backward kernels ([gradient_descent_pooling.cl]) *)

Module Pooling.

(** The macros the kernel source expects "defined externally", together with
    [OUT_SX] and [OUT_SY], which [pooling_common.cl] (not among the sources)
    derives from them once at configuration time. *)
Record Geometry := mkGeometry {
  SX : Z; SY : Z; N_CHANNELS : Z;
  KX : Z; KY : Z;
  SLIDE_X : Z; SLIDE_Y : Z;
  OUT_SX : Z; OUT_SY : Z
}.

(** Work-items of a one-dimensional range, run one after the other in
    increasing [get_global_id(0)]. *)
Fixpoint enqueue (item : Z → list dtype → option (list dtype))
    (gids : list Z) (buf : list dtype) : option (list dtype) :=
  match gids with
  | [] => Some buf
  | gid :: rest => buf' ← item gid buf; enqueue item rest buf'
  end.

Definition NDRange (global_size : nat) : list Z := Z.of_nat <$> seq 0 global_size.

Section Kernels.
Context (g : Geometry).

(** [#if (SLIDE_X < KX) || (SLIDE_Y < KY)  #define USE_ATOMICS 1] *)
Definition USE_ATOMICS : bool :=
  bool_decide (SLIDE_X g < KX g)%Z || bool_decide (SLIDE_Y g < KY g)%Z.

(** [#if (SLIDE_X >= KX) && (SLIDE_Y >= KY)] *)
Definition direct_write : bool :=
  bool_decide (SLIDE_X g >= KX g)%Z && bool_decide (SLIDE_Y g >= KY g)%Z.

(** The statement both kernels end in: a plain store, or [ATOM_ADD]. *)
Definition store (err_h : list dtype) (pos : Z) (v : dtype) : option (list dtype) :=
  if direct_write then Buffer.set err_h pos v else Buffer.atom_add err_h pos v.

(** [gd_max_pooling], the work-item [idx]. *)
Definition gd_max_pooling (err_y : list dtype) (h_offs : list Z)
    (idx : Z) (err_h : list dtype) : option (list dtype) :=
  off ← Buffer.get h_offs idx;
  e ← Buffer.get err_y idx;
  store err_h off e.

(** The whole launch, [global_size = number of elements in err_y]. *)
Definition run_gd_max_pooling (err_y : list dtype) (h_offs : list Z)
    (err_h : list dtype) : option (list dtype) :=
  enqueue (gd_max_pooling err_y h_offs) (NDRange (length err_y)) err_h.

(** Modelled from the spec: [pooling_common.cl] is not among the sources.
    A spatial buffer is "width x height x channels" with the channels
    interleaved, so a column index splits into its pixel and its channel;
    [MIN] is the smaller of two integers. *)
Definition TARGET_PIXEL_X (target_x : Z) : Z := Z.quot target_x (N_CHANNELS g).
Definition TARGET_CHANNEL (target_x : Z) : Z := Z.rem target_x (N_CHANNELS g).
Definition MIN (a b : Z) : Z := if decide (a < b)%Z then a else b.

(** [#if (OUT_SY - 1) * SLIDE_Y + KY == SY] and its x twin. *)
Definition exact_y : bool := bool_decide ((OUT_SY g - 1) * SLIDE_Y g + KY g = SY g)%Z.
Definition exact_x : bool := bool_decide ((OUT_SX g - 1) * SLIDE_X g + KX g = SX g)%Z.

Definition NY (target_y : Z) : Z :=
  if exact_y then KY g
  else MIN (KY g) (SY g - Z.rem target_y (OUT_SY g) * SLIDE_Y g).

Definition NX (target_x : Z) : Z :=
  if exact_x then KX g
  else MIN (KX g) (SX g - TARGET_PIXEL_X target_x * SLIDE_X g).

Definition cond_x (j x : Z) : bool :=
  if exact_x then bool_decide (j < KX g)%Z
  else bool_decide (j < KX g)%Z && bool_decide (x < SX g * N_CHANNELS g)%Z.

Definition cond_y (i y : Z) : bool :=
  if exact_y then bool_decide (i < KY g)%Z
  else bool_decide (i < KY g)%Z && bool_decide (y < SY g)%Z.

(** The inner [for (j = 0, x = start_x; ...; j++, x += N_CHANNELS)].  The
    loop leaves by its condition; running out of [fuel] with the condition
    still true is reported as a failure, never as a result. *)
Fixpoint loop_x (fuel : nat) (j x offs : Z) (avg : dtype)
    (err_h : list dtype) : option (list dtype) :=
  if cond_x j x then
    match fuel with
    | O => None
    | S fuel' =>
        err_h' ← store err_h (offs + x) avg;
        loop_x fuel' (j + 1) (x + N_CHANNELS g) offs avg err_h'
    end
  else Some err_h.

(** The outer [for (i = 0, y = start_y; ...; i++, y++, offs += SX * N_CHANNELS)]. *)
Fixpoint loop_y (fuel : nat) (i y offs start_x : Z) (avg : dtype)
    (err_h : list dtype) : option (list dtype) :=
  if cond_y i y then
    match fuel with
    | O => None
    | S fuel' =>
        err_h' ← loop_x (Z.to_nat (KX g)) 0 start_x offs avg err_h;
        loop_y fuel' (i + 1) (y + 1) (offs + SX g * N_CHANNELS g) start_x avg err_h'
    end
  else Some err_h.

(** [gd_avg_pooling], the work-item [gid].  A zero constant divisor
    ([OUT_SX * N_CHANNELS], [OUT_SY], [N_CHANNELS]) and a zero window count
    (a float division by zero, which [dtype] cannot hold) are failures. *)
Definition gd_avg_pooling (err_y : list dtype) (gid : Z) (err_h : list dtype)
    : option (list dtype) :=
  if decide (OUT_SX g * N_CHANNELS g = 0 ∨ OUT_SY g = 0 ∨ N_CHANNELS g = 0)%Z
  then None else
  let target_x := Z.rem gid (OUT_SX g * N_CHANNELS g) in
  let target_y := Z.quot gid (OUT_SX g * N_CHANNELS g) in
  let start_x := (TARGET_PIXEL_X target_x * SLIDE_X g * N_CHANNELS g
                  + TARGET_CHANNEL target_x)%Z in
  let start_y := (Z.rem target_y (OUT_SY g) * SLIDE_Y g)%Z in
  let idx := (target_y * OUT_SX g * N_CHANNELS g + target_x)%Z in
  e ← Buffer.get err_y idx;
  if decide (NY target_y * NX target_x = 0)%Z then None else
  let avg := e / Qc_of_Z (NY target_y * NX target_x) in
  let offs := ((Z.quot target_y (OUT_SY g) * SY g + start_y) * SX g * N_CHANNELS g)%Z in
  loop_y (Z.to_nat (KY g)) 0 start_y offs start_x avg err_h.

Definition run_gd_avg_pooling (err_y : list dtype) (err_h : list dtype)
    : option (list dtype) :=
  enqueue (gd_avg_pooling err_y) (NDRange (length err_y)) err_h.

End Kernels.

(** *** Specification-side notions for the pooling kernels *)

(** A sequence of stores [(position, value)], in order. *)
Fixpoint scatter (g : Geometry) (ps : list (Z * dtype)) (buf : list dtype)
    : option (list dtype) :=
  match ps with
  | [] => Some buf
  | (pos, v) :: rest => buf' ← store g buf pos v; scatter g rest buf'
  end.

(** Everything a list of stores sends to position [p]. *)
Fixpoint gathered (ps : list (Z * dtype)) (p : Z) : dtype :=
  match ps with
  | [] => 0
  | (pos, v) :: rest =>
      if decide (pos = p) then v + gathered rest p else gathered rest p
  end.

(** The unit impulse of length [n] at [o]. *)
Definition impulse (n o : nat) : list dtype := <[o := 1]> (Buffer.zeros n).

(** An offset array that a forward pass over non-overlapping windows can
    have recorded for a destination of [n] cells: one cell per output
    element, inside the destination, no cell recorded twice. *)
Definition valid_offsets (n : nat) (h_offs : list Z) : Prop :=
  Forall (λ off, 0 ≤ off < Z.of_nat n)%Z h_offs ∧ NoDup h_offs.

(** The geometries the kernels are built for: positive sizes, and every
    window starts inside the input. *)
Record well_formed (g : Geometry) : Prop := mkWellFormed {
  wf_SX : (0 < SX g)%Z;
  wf_SY : (0 < SY g)%Z;
  wf_N_CHANNELS : (0 < N_CHANNELS g)%Z;
  wf_KX : (0 < KX g)%Z;
  wf_KY : (0 < KY g)%Z;
  wf_SLIDE_X : (0 < SLIDE_X g)%Z;
  wf_SLIDE_Y : (0 < SLIDE_Y g)%Z;
  wf_OUT_SX : (0 < OUT_SX g)%Z;
  wf_OUT_SY : (0 < OUT_SY g)%Z;
  wf_last_x : ((OUT_SX g - 1) * SLIDE_X g < SX g)%Z;
  wf_last_y : ((OUT_SY g - 1) * SLIDE_Y g < SY g)%Z
}.

(** The part of [start, start + k) below [limit]. *)
Definition clipped (start k limit : Z) : list Z :=
  filter (λ x, x < limit)%Z ((λ t, start + Z.of_nat t)%Z <$> seq 0 (Z.to_nat k)).

(** The input columns and rows of a pooling window, clipped by the input
    edge. *)
Definition window_cols (g : Geometry) (px : Z) : list Z :=
  clipped (px * SLIDE_X g) (KX g) (SX g).
Definition window_rows (g : Geometry) (oy : Z) : list Z :=
  clipped (oy * SLIDE_Y g) (KY g) (SY g).

(** The number of input pixels a window really covers. *)
Definition window_count (g : Geometry) (px oy : Z) : nat :=
  (length (window_rows g oy) * length (window_cols g px))%nat.

(** Position in [err_h] of channel [ch] of pixel [(x, y)] of image [b]. *)
Definition cell (g : Geometry) (b y x ch : Z) : Z :=
  (((b * SY g + y) * SX g + x) * N_CHANNELS g + ch)%Z.

(** The output element a work-item stands for: image, output row, output
    column, channel. *)
Definition out_image (g : Geometry) (gid : Z) : Z :=
  Z.quot (Z.quot gid (OUT_SX g * N_CHANNELS g)) (OUT_SY g).
Definition out_row (g : Geometry) (gid : Z) : Z :=
  Z.rem (Z.quot gid (OUT_SX g * N_CHANNELS g)) (OUT_SY g).
Definition out_col (g : Geometry) (gid : Z) : Z :=
  Z.quot (Z.rem gid (OUT_SX g * N_CHANNELS g)) (N_CHANNELS g).
Definition out_channel (g : Geometry) (gid : Z) : Z :=
  Z.rem (Z.rem gid (OUT_SX g * N_CHANNELS g)) (N_CHANNELS g).

(** The cells of row [y] of image [b] under the window of output column
    [px], channel [ch]. *)
Definition row_cells (g : Geometry) (b px ch y : Z) : list Z :=
  x ← window_cols g px; [cell g b y x ch].

(** The cells of [err_h] under the window of work-item [gid], row by row. *)
Definition window_cells (g : Geometry) (gid : Z) : list Z :=
  window_rows g (out_row g gid)
  ≫= row_cells g (out_image g gid) (out_col g gid) (out_channel g gid).

(** The stores of work-item [gid] of average pooling: its share of the
    error into every cell of its clipped window. *)
Definition avg_stores (g : Geometry) (err_y : list dtype) (gid : nat)
    : list (Z * dtype) :=
  (λ p, (p, default 0 (err_y !! gid)
            / Qc_of_Z (Z.of_nat (window_count g (out_col g (Z.of_nat gid))
                                                (out_row g (Z.of_nat gid))))))
  <$> window_cells g (Z.of_nat gid).

(** What a forward max-pooling pass records: for every output element a
    cell under that element's own window. *)
Definition argmax_offsets (g : Geometry) (h_offs : list Z) : Prop :=
  ∀ idx off, h_offs !! idx = Some off → off ∈ window_cells g (Z.of_nat idx).

End Pooling.

(** ** The weight update ([weights_update] and [weights_update.store_output]) *)

Module GradientDescent.

(** The macros that select the code path. *)
Record Config := mkConfig {
  USE_ORTHO : Z;
  WEIGHTS_TRANSPOSED : Z;
  H : Z;
  Y : Z
}.

(** Modelled from the spec: the [sign(weight)] of the pure L1 gradient
    [factor_l12 * sign(weight)]; the macro [SIGN] is not among the sources. *)
Definition SIGN (x : dtype) : dtype :=
  if decide (0 < x) then 1 else if decide (x < 0) then - 1 else 0.

(** Modelled from the spec: [gradient_descent_common.cl], which defines
    [gradient_step_l12], is not among the sources.  "L1L2Penalty blends L1
    and L2 regularization gradients via the l1_vs_l2 mixing coefficient
    (0 = pure L2, 1 = pure L1)", the pure gradients being
    [factor_l12 * weight] and [factor_l12 * sign(weight)]. *)
Definition gradient_step_l12 (weight factor l1_vs_l2 : dtype) : dtype :=
  factor * ((1 - l1_vs_l2) * weight + l1_vs_l2 * SIGN weight).

Section Step.
(** [gradient_step_ortho] lives in [weights_ortho.cl], not among the sources,
    and the spec gives no formula for it: it stays a parameter. *)
Context (gradient_step_ortho : dtype → dtype → Z → Z → list dtype → dtype).
Context (c : Config).

(** The column handed to [gradient_step_ortho]. *)
Definition ortho_column (idx : Z) : Z :=
  if decide (WEIGHTS_TRANSPOSED c > 0)%Z then Z.quot idx (Y c) else Z.rem idx (H c).

(** [dtype gd = -lr * (sum + gradient_step_l12(...) [+ gradient_step_ortho(...)])] *)
Definition gd (lr sum weight factor_l12 l1_vs_l2 factor_ortho : dtype)
    (idx : Z) (col_sums : list dtype) : dtype :=
  if decide (USE_ORTHO c > 0)%Z then
    - lr * (sum + gradient_step_l12 weight factor_l12 l1_vs_l2
            + gradient_step_ortho weight factor_ortho (ortho_column idx) (Y c) col_sums)
  else
    - lr * (sum + gradient_step_l12 weight factor_l12 l1_vs_l2).

(** Modelled from the spec: [gradient_descent.store_output], included last,
    is not among the sources.  The spec's rule is
    [new_weight = weight - learning_rate * (...)], that is [weight + gd];
    "when momentum > 0 ... the applied delta uses the momentum-blended
    gradient", a blend the spec does not define and which stays the
    parameter [blend moment gd previous]. *)
Definition store_output (blend : dtype → dtype → dtype → dtype)
    (moment weight gd_ : dtype) (gradient_with_moment : list dtype) (idx : Z)
    : option dtype :=
  if decide (0 < moment) then
    previous ← Buffer.get gradient_with_moment idx;
    Some (weight + blend moment gd_ previous)
  else Some (weight + gd_).

(** [weights_update], the work-item [idx]: the new [weights] buffer. *)
Definition weights_update (blend : dtype → dtype → dtype → dtype)
    (weights gradient gradient_with_moment : list dtype)
    (lr factor_l12 l1_vs_l2 moment factor_ortho : dtype) (col_sums : list dtype)
    (idx : Z) : option (list dtype) :=
  sum ← Buffer.get gradient idx;
  weight ← Buffer.get weights idx;
  new_weight ← store_output blend moment weight
    (gd lr sum weight factor_l12 l1_vs_l2 factor_ortho idx col_sums)
    gradient_with_moment idx;
  Buffer.set weights idx new_weight.

End Step.

End GradientDescent.

(** ** The denormalization template ([denormalization.jcu]) *)

Module Denormalization.

(** Expressions of the rendered function bodies. *)
Inductive Expr :=
  | Src
  | Scalar (name : string)
  | Index (name : string)
  | Sub (a b : Expr)
  | Add (a b : Expr)
  | Mul (a b : Expr)
  | Div (a b : Expr).

(** What the body of [denormalize] renders to. *)
Inductive Body :=
  | Return (e : Expr)
  | ErrorDirective (msg : string).

(** A rendered [__constant__] definition. *)
Inductive Constant :=
  | ConstArray (values : list dtype)
  | ConstScalar (value : dtype).

(** A template variable. *)
Inductive JValue :=
  | JNum (q : dtype)
  | JList (l : list dtype).

Definition as_list (v : option JValue) : option (list dtype) :=
  match v with Some (JList l) => Some l | _ => None end.

Definition as_num (v : option JValue) : option dtype :=
  match v with Some (JNum q) => Some q | _ => None end.

(** Lines 1-10: the constants; [None] when the expansion itself fails (a
    coefficient of the wrong shape, a division by zero). *)
Definition render_constants (normalization : string) (coeffs : list JValue)
    : option (list (string * Constant)) :=
  if String.eqb normalization "pointwise" then
    c0 ← as_list (coeffs !! 0%nat); c1 ← as_list (coeffs !! 1%nat);
    Some [("mul", ConstArray c0); ("sub", ConstArray c1)]
  else if String.eqb normalization "mean_disp" then
    c0 ← as_list (coeffs !! 0%nat); c1 ← as_list (coeffs !! 1%nat);
    Some [("mean", ConstArray c0); ("disp", ConstArray c1)]
  else if String.eqb normalization "range_linear" then
    c0 ← as_num (coeffs !! 0%nat); c1 ← as_num (coeffs !! 1%nat);
    c2 ← as_num (coeffs !! 2%nat); c3 ← as_num (coeffs !! 3%nat);
    if decide (c2 - c3 = 0 ∨ c0 - c1 = 0) then None else
    Some [("sub", ConstScalar ((c2 * c1 - c3 * c0) / (c2 - c3)));
          ("mul", ConstScalar ((c2 - c3) / (c0 - c1)))]
  else Some [].

(** Lines 13-25: the body of [denormalize(src, index)]. *)
Definition render_denormalize (normalization : string) : Body :=
  if String.eqb normalization "pointwise" then
    Return (Div (Sub Src (Index "sub")) (Index "mul"))
  else if String.eqb normalization "mean_disp" then
    Return (Add (Mul Src (Index "disp")) (Index "mean"))
  else if String.eqb normalization "none" then
    Return Src
  else if String.eqb normalization "range_linear" then
    Return (Mul (Sub Src (Scalar "sub")) (Scalar "mul"))
  else ErrorDirective "Unsupported normalization type".

Definition lookup_constant (consts : list (string * Constant)) (name : string)
    : option Constant :=
  hit ← list_find (λ p, p.1 = name) consts; Some hit.2.2.

(** Evaluation of a body expression at run time. *)
Fixpoint eval (consts : list (string * Constant)) (e : Expr)
    (src : dtype) (index : Z) : option dtype :=
  match e with
  | Src => Some src
  | Scalar name =>
      match lookup_constant consts name with
      | Some (ConstScalar v) => Some v
      | _ => None
      end
  | Index name =>
      match lookup_constant consts name with
      | Some (ConstArray a) => Buffer.get a index
      | _ => None
      end
  | Sub a b => x ← eval consts a src index; y ← eval consts b src index; Some (x - y)
  | Add a b => x ← eval consts a src index; y ← eval consts b src index; Some (x + y)
  | Mul a b => x ← eval consts a src index; y ← eval consts b src index; Some (x * y)
  | Div a b =>
      x ← eval consts a src index; y ← eval consts b src index;
      if decide (y = 0) then None else Some (x / y)
  end.

Inductive ConfigurationError := UnsupportedNormalization (msg : string).

(** A compiled kernel: the device function [denormalize]. *)
Record Kernel := mkKernel { denormalize : dtype → Z → option dtype }.

(** The compiler on the rendered source: [#error] stops the translation. *)
Definition compile (consts : list (string * Constant)) (body : Body)
    : ConfigurationError + Kernel :=
  match body with
  | ErrorDirective msg => inl (UnsupportedNormalization msg)
  | Return e => inr (mkKernel (eval consts e))
  end.

(** Expansion followed by compilation. *)
Definition build (normalization : string) (coeffs : list JValue)
    : option (ConfigurationError + Kernel) :=
  consts ← render_constants normalization coeffs;
  Some (compile consts (render_denormalize normalization)).

Definition recognized (normalization : string) : Prop :=
  normalization ∈ ["none"; "pointwise"; "mean_disp"; "range_linear"].

End Denormalization.

(** ** The functional test fixture ([functional_test.h]) *)

Module WorkflowTest.

(** What a shared pointer of the fixture can own. *)
Inductive Object :=
  | TheWorkflow
  | FloatArray (a : list dtype).

(** The constants of the fixture and [CreateFloatArray], declared here or
    in [tests/common_test.h] and defined elsewhere: parameters. *)
Record Constants := mkConstants {
  kInputsLinear : nat;
  kOutputsTanh : nat;
  kValueInputInit : dtype;
  kValueOutputInit : dtype;
  CreateFloatArray : nat → dtype → list dtype
}.

(** The heap of shared objects in allocation order, and the three private
    members; [None] is the empty shared pointer. *)
Record Fixture := mkFixture {
  heap : list Object;
  workflow_ : option nat;
  input_ : option nat;
  output_ : option nat
}.

(** A test starts with three empty pointers. *)
Definition fresh : Fixture := mkFixture [] None None None.

(** [std::make_shared] and the like: a new object at the next address. *)
Definition allocate (o : Object) (f : Fixture) : nat * list Object :=
  (length (heap f), heap f ++ [o]).

(** [workflow()] *)
Definition workflow (f : Fixture) : nat * Fixture :=
  match workflow_ f with
  | Some p => (p, f)
  | None =>
      let '(p, h) := allocate TheWorkflow f in
      (p, mkFixture h (Some p) (input_ f) (output_ f))
  end.

(** [input()] *)
Definition input (k : Constants) (f : Fixture) : nat * Fixture :=
  match input_ f with
  | Some p => (p, f)
  | None =>
      let '(p, h) :=
        allocate (FloatArray (CreateFloatArray k (kInputsLinear k) (kValueInputInit k))) f in
      (p, mkFixture h (workflow_ f) (Some p) (output_ f))
  end.

(** [output()] *)
Definition output (k : Constants) (f : Fixture) : nat * Fixture :=
  match output_ f with
  | Some p => (p, f)
  | None =>
      let '(p, h) :=
        allocate (FloatArray (CreateFloatArray k (kOutputsTanh k) (kValueOutputInit k))) f in
      (p, mkFixture h (workflow_ f) (input_ f) (Some p))
  end.

(** The three accessors. *)
Inductive Accessor := Get_workflow | Get_input | Get_output.

#[global] Instance Accessor_eq_dec : EqDecision Accessor.
Proof. solve_decision. Defined.

Definition call (k : Constants) (a : Accessor) (f : Fixture) : nat * Fixture :=
  match a with
  | Get_workflow => workflow f
  | Get_input => input k f
  | Get_output => output k f
  end.

(** Any sequence of accessor calls. *)
Definition calls (k : Constants) (l : list Accessor) (f : Fixture) : Fixture :=
  foldl (λ f a, (call k a f).2) f l.

Definition member (a : Accessor) (f : Fixture) : option nat :=
  match a with
  | Get_workflow => workflow_ f
  | Get_input => input_ f
  | Get_output => output_ f
  end.

(** What an accessor creates on first use. *)
Definition created (k : Constants) (a : Accessor) : Object :=
  match a with
  | Get_workflow => TheWorkflow
  | Get_input => FloatArray (CreateFloatArray k (kInputsLinear k) (kValueInputInit k))
  | Get_output => FloatArray (CreateFloatArray k (kOutputsTanh k) (kValueOutputInit k))
  end.

(** Every member that is set owns the object its accessor creates, and no
    two members own the same object. *)
Definition consistent (k : Constants) (f : Fixture) : Prop :=
  (∀ a p, member a f = Some p → heap f !! p = Some (created k a)) ∧
  (∀ a b p, member a f = Some p → member b f = Some p → a = b).

End WorkflowTest.

(** * Properties *)

(** ** Buffers *)

Section BufferFacts.

Lemma get_of_nat {A} (b : list A) (i : nat) : Buffer.get b (Z.of_nat i) = b !! i.
Proof.
  unfold Buffer.get. rewrite decide_True by lia. by rewrite Nat2Z.id.
Qed.

Lemma get_Some_range {A} (b : list A) (i : Z) (x : A) :
  Buffer.get b i = Some x → (0 ≤ i < Z.of_nat (length b))%Z ∧ b !! Z.to_nat i = Some x.
Proof.
  unfold Buffer.get. case_decide; [|done]. intros Hx. split; [|done].
  apply lookup_lt_Some in Hx. lia.
Qed.

Lemma set_in_range (b : list dtype) (i : Z) (v : dtype) :
  (0 ≤ i < Z.of_nat (length b))%Z →
  Buffer.set b i v = Some (<[Z.to_nat i := v]> b).
Proof. intros Hi. unfold Buffer.set. by rewrite decide_True. Qed.

Lemma atom_add_in_range (b : list dtype) (i : Z) (v : dtype) :
  (0 ≤ i < Z.of_nat (length b))%Z →
  ∃ old, b !! Z.to_nat i = Some old ∧
         Buffer.atom_add b i v = Some (<[Z.to_nat i := old + v]> b).
Proof.
  intros Hi. destruct (lookup_lt_is_Some_2 b (Z.to_nat i)) as [old Hold]; [lia|].
  exists old. split; [done|]. unfold Buffer.atom_add, Buffer.get.
  rewrite decide_True by lia. rewrite Hold. simpl. by apply set_in_range.
Qed.

Lemma total_zeros (n : nat) : Buffer.total (Buffer.zeros n) = 0.
Proof.
  induction n as [|n IH]; [done|].
  change (Buffer.total (Buffer.zeros (S n))) with (0 + Buffer.total (Buffer.zeros n)).
  rewrite IH. ring.
Qed.

Lemma total_insert (b : list dtype) (i : nat) (old v : dtype) :
  b !! i = Some old → Buffer.total (<[i := v]> b) = Buffer.total b - old + v.
Proof.
  revert i. induction b as [|x b IH]; intros [|i] Hi; simplify_eq/=.
  - ring.
  - rewrite (IH _ Hi). ring.
Qed.

Lemma lookup_zeros (n i : nat) : (i < n)%nat → Buffer.zeros n !! i = Some 0.
Proof. intros. by apply lookup_replicate_2. Qed.

End BufferFacts.

(** ** Sequences of stores *)

Section ScatterFacts.
Import Pooling.
Context (g : Geometry).

Lemma direct_or_atomics : direct_write g = negb (USE_ATOMICS g).
Proof.
  unfold direct_write, USE_ATOMICS.
  repeat case_bool_decide; simpl; try done; lia.
Qed.

Lemma direct_write_true :
  direct_write g = true ↔ (SLIDE_X g >= KX g ∧ SLIDE_Y g >= KY g)%Z.
Proof.
  unfold direct_write. rewrite andb_true_iff, !bool_decide_eq_true. done.
Qed.

Lemma direct_write_false :
  direct_write g = false ↔ (SLIDE_X g < KX g ∨ SLIDE_Y g < KY g)%Z.
Proof.
  unfold direct_write. rewrite andb_false_iff, !bool_decide_eq_false. lia.
Qed.

Lemma store_direct (buf : list dtype) (pos : Z) (v : dtype) :
  direct_write g = true → (0 ≤ pos < Z.of_nat (length buf))%Z →
  store g buf pos v = Some (<[Z.to_nat pos := v]> buf).
Proof. intros Hd Hpos. unfold store. rewrite Hd. by apply set_in_range. Qed.

Lemma store_atomic (buf : list dtype) (pos : Z) (v : dtype) :
  direct_write g = false → (0 ≤ pos < Z.of_nat (length buf))%Z →
  ∃ old, buf !! Z.to_nat pos = Some old ∧
         store g buf pos v = Some (<[Z.to_nat pos := old + v]> buf).
Proof. intros Hd Hpos. unfold store. rewrite Hd. by apply atom_add_in_range. Qed.

Lemma store_Some (buf r : list dtype) (pos : Z) (v : dtype) :
  store g buf pos v = Some r →
  (0 ≤ pos < Z.of_nat (length buf))%Z ∧ length r = length buf.
Proof.
  unfold store, Buffer.atom_add, Buffer.set. intros Hs.
  destruct (direct_write g); simplify_option_eq; by rewrite ?length_insert.
Qed.

Lemma scatter_atomic (ps : list (Z * dtype)) (buf : list dtype) :
  direct_write g = false →
  Forall (λ q, 0 ≤ q.1 < Z.of_nat (length buf))%Z ps →
  ∃ r, scatter g ps buf = Some r ∧ length r = length buf ∧
       ∀ i x, buf !! i = Some x → r !! i = Some (x + gathered ps (Z.of_nat i)).
Proof.
  intros Hd. revert buf. induction ps as [|[pos v] ps IH]; intros buf Hps.
  - exists buf. split; [done|]. split; [done|]. intros i x ->. simpl. f_equal. ring.
  - apply Forall_cons in Hps as [Hpos Hps]. simpl in Hpos.
    destruct (store_atomic buf pos v Hd Hpos) as (old & Hold & Hst).
    destruct (IH (<[Z.to_nat pos := old + v]> buf)) as (r & Hr & Hlen & Hval).
    { by rewrite length_insert. }
    exists r. simpl. rewrite Hst. simpl. split; [done|].
    rewrite length_insert in Hlen. split; [done|]. intros i x Hi.
    destruct (decide (pos = Z.of_nat i)) as [->|Hne].
    + rewrite Nat2Z.id in Hold, Hval. simplify_eq.
      rewrite (Hval i (old + v)).
      * f_equal. ring.
      * apply list_lookup_insert_eq. by eapply lookup_lt_Some.
    + rewrite (Hval i x); [done|].
      rewrite list_lookup_insert_ne by lia. done.
Qed.

Lemma scatter_direct (ps : list (Z * dtype)) (buf : list dtype) :
  direct_write g = true →
  Forall (λ q, 0 ≤ q.1 < Z.of_nat (length buf))%Z ps →
  ∃ r, scatter g ps buf = Some r ∧ length r = length buf ∧
       (∀ i, Z.of_nat i ∉ ps.*1 → r !! i = buf !! i) ∧
       (NoDup ps.*1 → ∀ pos v, (pos, v) ∈ ps → r !! Z.to_nat pos = Some v).
Proof.
  intros Hd. revert buf. induction ps as [|[pos v] ps IH]; intros buf Hps.
  - exists buf. split; [done|]. split; [done|]. split; [done|].
    intros _ pos v Hin. by apply elem_of_nil in Hin.
  - apply Forall_cons in Hps as [Hpos Hps]. simpl in Hpos.
    pose proof (store_direct buf pos v Hd Hpos) as Hst.
    destruct (IH (<[Z.to_nat pos := v]> buf)) as (r & Hr & Hlen & Hframe & Hval).
    { by rewrite length_insert. }
    exists r. simpl. rewrite Hst. simpl. split; [done|].
    rewrite length_insert in Hlen. split; [done|]. split.
    + intros i Hi. apply not_elem_of_cons in Hi as [Hne Hi].
      rewrite (Hframe i Hi). apply list_lookup_insert_ne. lia.
    + intros Hnd q w Hin. apply NoDup_cons in Hnd as [Hfresh Hnd].
      apply elem_of_cons in Hin as [Heq|Hin].
      * simplify_eq. rewrite Hframe.
        -- apply list_lookup_insert_eq. lia.
        -- by rewrite Z2Nat.id by lia.
      * by apply Hval.
Qed.

(** After plain stores a cell holds what it held before or a value that
    was stored to it. *)
Lemma scatter_direct_values (ps : list (Z * dtype)) (buf r : list dtype) :
  direct_write g = true → scatter g ps buf = Some r →
  ∀ i v, r !! i = Some v → buf !! i = Some v ∨ (Z.of_nat i, v) ∈ ps.
Proof.
  intros Hd. revert buf. induction ps as [|[pos w] ps IH]; intros buf Hr i v Hi.
  - simpl in Hr. simplify_eq. by left.
  - simpl in Hr. destruct (store g buf pos w) as [buf'|] eqn:Hst; [|done].
    pose proof (store_Some _ _ _ _ Hst) as [Hpos _].
    rewrite (store_direct buf pos w Hd Hpos) in Hst. simplify_eq. simpl in Hr.
    destruct (IH _ Hr i v Hi) as [Hold|Hin].
    + destruct (decide (i = Z.to_nat pos)) as [->|Hne].
      * rewrite list_lookup_insert_eq in Hold by lia. simplify_eq.
        right. rewrite Z2Nat.id by lia. apply list_elem_of_here.
      * rewrite list_lookup_insert_ne in Hold by done. by left.
    + right. by apply list_elem_of_further.
Qed.

(** A sequence of stores goes through exactly when every position is
    inside the buffer. *)
Lemma scatter_is_Some (ps : list (Z * dtype)) (buf : list dtype) :
  is_Some (scatter g ps buf) ↔ Forall (λ q, 0 ≤ q.1 < Z.of_nat (length buf))%Z ps.
Proof.
  split.
  - revert buf. induction ps as [|[pos v] ps IH]; intros buf [r Hr]; [done|].
    simpl in Hr. destruct (store g buf pos v) as [buf'|] eqn:Hst; [|done].
    apply store_Some in Hst as [Hpos Hlen]. simpl in Hr.
    constructor; [done|]. rewrite <-Hlen. apply IH. by exists r.
  - intros Hps. destruct (direct_write g) eqn:Hd.
    + destruct (scatter_direct ps buf Hd Hps) as (r & -> & _). by exists r.
    + destruct (scatter_atomic ps buf Hd Hps) as (r & -> & _). by exists r.
Qed.

(** Conservation for plain stores into cells that hold zero. *)
Lemma scatter_direct_total (ps : list (Z * dtype)) (buf r : list dtype) :
  direct_write g = true → NoDup ps.*1 →
  (∀ pos, pos ∈ ps.*1 → buf !! Z.to_nat pos = Some 0) →
  scatter g ps buf = Some r →
  Buffer.total r = Buffer.total buf + Buffer.total ps.*2.
Proof.
  intros Hd. revert buf. induction ps as [|[pos v] ps IH]; intros buf Hnd Hz Hr.
  - simpl in *. simplify_eq. ring.
  - simpl in Hr. destruct (store g buf pos v) as [buf'|] eqn:Hst; [|done].
    pose proof (store_Some _ _ _ _ Hst) as [Hpos _].
    rewrite (store_direct buf pos v Hd Hpos) in Hst. simplify_eq. simpl in Hr.
    apply NoDup_cons in Hnd as [Hfresh Hnd].
    rewrite (IH _ Hnd) with (2 := Hr).
    + rewrite (total_insert buf _ 0 v).
      * change (Buffer.total ((pos, v) :: ps).*2) with (v + Buffer.total ps.*2). ring.
      * apply Hz. simpl. apply elem_of_cons. by left.
    + intros q Hq. rewrite list_lookup_insert_ne.
      * apply Hz. simpl. apply elem_of_cons. by right.
      * assert (is_Some (scatter g ps (<[Z.to_nat pos := v]> buf))) as Hin by eauto.
        apply scatter_is_Some in Hin. rewrite Forall_forall in Hin.
        apply list_elem_of_fmap in Hq as ([q' w] & -> & Hq).
        specialize (Hin _ Hq). simpl in *. intros Heq.
        apply Hfresh. apply list_elem_of_fmap. exists (q', w). split; [|done].
        simpl. lia.
Qed.

Lemma gathered_Permutation (ps ps' : list (Z * dtype)) (p : Z) :
  ps ≡ₚ ps' → gathered ps p = gathered ps' p.
Proof.
  induction 1 as [|[pos v] ps ps' _ IH|[pos v] [pos' v'] ps|ps ps' ps'' _ IH1 _ IH2];
    simpl; [done| |repeat case_decide; ring|congruence].
  rewrite IH. done.
Qed.

(** Exact adds commute: over the rationals the order of the atomic adds
    does not matter (a float build rounds each add, which this does not
    cover). *)
Lemma scatter_atomic_schedule (ps ps' : list (Z * dtype)) (buf : list dtype) :
  direct_write g = false → ps ≡ₚ ps' → scatter g ps buf = scatter g ps' buf.
Proof.
  intros Hd Hperm.
  destruct (decide (Forall (λ q : Z * dtype, 0 ≤ q.1 < Z.of_nat (length buf))%Z ps))
    as [Hps|Hps].
  - destruct (scatter_atomic ps buf Hd Hps) as (r & -> & Hlen & Hval).
    rewrite Hperm in Hps.
    destruct (scatter_atomic ps' buf Hd Hps) as (r' & -> & Hlen' & Hval').
    f_equal. apply list_eq. intros i.
    destruct (buf !! i) as [x|] eqn:Hx.
    + rewrite (Hval i x Hx), (Hval' i x Hx).
      by rewrite (gathered_Permutation ps ps' _ Hperm).
    + apply lookup_ge_None in Hx. rewrite !lookup_ge_None_2; [done|lia..].
  - destruct (scatter g ps buf) as [r|] eqn:Hr.
    { exfalso. apply Hps, scatter_is_Some. eauto. }
    destruct (scatter g ps' buf) as [r'|] eqn:Hr'; [|done].
    exfalso. apply Hps. rewrite Hperm. apply scatter_is_Some. eauto.
Qed.

(** Plain stores into pairwise distinct cells commute as well. *)
Lemma scatter_direct_schedule (ps ps' : list (Z * dtype)) (buf : list dtype) :
  direct_write g = true → NoDup ps.*1 → ps ≡ₚ ps' →
  scatter g ps buf = scatter g ps' buf.
Proof.
  intros Hd Hnd Hperm.
  destruct (decide (Forall (λ q : Z * dtype, 0 ≤ q.1 < Z.of_nat (length buf))%Z ps))
    as [Hps|Hps].
  - destruct (scatter_direct ps buf Hd Hps) as (r & -> & Hlen & Hframe & Hval).
    pose proof Hps as Hps'. rewrite Hperm in Hps'.
    destruct (scatter_direct ps' buf Hd Hps') as (r' & -> & Hlen' & Hframe' & Hval').
    specialize (Hval Hnd). rewrite Hperm in Hnd. specialize (Hval' Hnd).
    f_equal. apply list_eq. intros i.
    destruct (decide (Z.of_nat i ∈ ps.*1)) as [Hin|Hnot].
    + apply list_elem_of_fmap in Hin as ([pos v] & Hpos & Hin). simpl in Hpos.
      rewrite <-(Nat2Z.id i), Hpos. rewrite (Hval _ _ Hin).
      rewrite Hperm in Hin. by rewrite (Hval' _ _ Hin).
    + rewrite (Hframe i Hnot). rewrite Hperm in Hnot. by rewrite (Hframe' i Hnot).
  - destruct (scatter g ps buf) as [r|] eqn:Hr.
    { exfalso. apply Hps, scatter_is_Some. eauto. }
    destruct (scatter g ps' buf) as [r'|] eqn:Hr'; [|done].
    exfalso. apply Hps. rewrite Hperm. apply scatter_is_Some. eauto.
Qed.

End ScatterFacts.

(** ** Max-pooling backward *)

Section MaxPooling.
Import Pooling.
Context (g : Geometry).

Lemma gd_max_pooling_store (err_y : list dtype) (h_offs : list Z) (idx : nat)
    (off : Z) (e : dtype) (err_h : list dtype) :
  h_offs !! idx = Some off → err_y !! idx = Some e →
  gd_max_pooling g err_y h_offs (Z.of_nat idx) err_h = store g err_h off e.
Proof.
  intros Hoff He. unfold gd_max_pooling. rewrite !get_of_nat, Hoff, He. done.
Qed.

Lemma enqueue_max_scatter (err_y : list dtype) (h_offs : list Z) (m k : nat)
    (buf : list dtype) :
  (k + m ≤ length h_offs)%nat → (k + m ≤ length err_y)%nat →
  enqueue (gd_max_pooling g err_y h_offs) (Z.of_nat <$> seq k m) buf
  = scatter g (take m (drop k (zip h_offs err_y))) buf.
Proof.
  revert k buf. induction m as [|m IH]; intros k buf Hh Hy; [done|].
  destruct (lookup_lt_is_Some_2 h_offs k) as [off Hoff]; [lia|].
  destruct (lookup_lt_is_Some_2 err_y k) as [e He]; [lia|].
  assert (zip h_offs err_y !! k = Some (off, e)) as Hz.
  { apply lookup_zip_with_Some. eauto. }
  rewrite (drop_S _ _ _ Hz). simpl.
  rewrite (gd_max_pooling_store _ _ _ _ _ _ Hoff He).
  destruct (store g buf off e) as [buf'|]; [|done]. simpl.
  apply IH; lia.
Qed.

Lemma run_max_scatter (err_y : list dtype) (h_offs : list Z) (buf : list dtype) :
  length h_offs = length err_y →
  run_gd_max_pooling g err_y h_offs buf = scatter g (zip h_offs err_y) buf.
Proof.
  intros Hlen. unfold run_gd_max_pooling, NDRange.
  rewrite enqueue_max_scatter by lia. rewrite drop_0, take_ge; [done|].
  rewrite length_zip_with. lia.
Qed.

Lemma zip_in_range (err_y : list dtype) (h_offs : list Z) (n : nat) :
  Forall (λ off, 0 ≤ off < Z.of_nat n)%Z h_offs →
  Forall (λ q : Z * dtype, 0 ≤ q.1 < Z.of_nat n)%Z (zip h_offs err_y).
Proof.
  rewrite !Forall_forall. intros Hin [off e] Hq.
  apply list_elem_of_lookup in Hq as [i Hi].
  apply lookup_zip_with_Some in Hi as (x & y & ? & Hx & _). simplify_eq.
  apply Hin. by eapply list_elem_of_lookup_2.
Qed.

Lemma enqueue_max_pairs (err_y : list dtype) (h_offs : list Z) (idxs : list nat)
    (buf : list dtype) :
  Forall (λ i, i < length h_offs ∧ i < length err_y)%nat idxs →
  enqueue (gd_max_pooling g err_y h_offs) (Z.of_nat <$> idxs) buf
  = scatter g ((λ i, (default 0%Z (h_offs !! i), default 0 (err_y !! i))) <$> idxs) buf.
Proof.
  revert buf. induction idxs as [|i idxs IH]; intros buf Hin; [done|].
  apply Forall_cons in Hin as [[Hh Hy] Hin].
  destruct (lookup_lt_is_Some_2 h_offs i Hh) as [off Hoff].
  destruct (lookup_lt_is_Some_2 err_y i Hy) as [e He].
  rewrite !fmap_cons. simpl. rewrite (gd_max_pooling_store _ _ _ _ _ _ Hoff He).
  rewrite Hoff, He. simpl.
  destruct (store g buf off e) as [buf'|]; [|done]. simpl. by apply IH.
Qed.

Lemma zip_as_pairs (err_y : list dtype) (h_offs : list Z) :
  length h_offs = length err_y →
  zip h_offs err_y
  = (λ i, (default 0%Z (h_offs !! i), default 0 (err_y !! i))) <$> seq 0 (length err_y).
Proof.
  intros Hlen. apply list_eq. intros i. rewrite list_lookup_fmap.
  destruct (decide (i < length err_y)%nat) as [Hi|Hi].
  - rewrite lookup_seq_lt by done. simpl.
    destruct (lookup_lt_is_Some_2 h_offs i) as [off Hoff]; [lia|].
    destruct (lookup_lt_is_Some_2 err_y i Hi) as [e He].
    rewrite Hoff, He. simpl. apply lookup_zip_with_Some. eauto.
  - rewrite lookup_seq_ge by lia. simpl. apply lookup_ge_None.
    rewrite length_zip_with. lia.
Qed.

(** The work-items of max-pooling backward may run in any order: with
    plain stores when no cell is recorded twice, with atomic adds as far as
    the adds are exact. *)
Lemma max_pooling_schedule (err_y : list dtype) (h_offs : list Z) (idxs : list nat)
    (buf : list dtype) :
  length h_offs = length err_y →
  idxs ≡ₚ seq 0 (length err_y) →
  (direct_write g = true → NoDup h_offs) →
  enqueue (gd_max_pooling g err_y h_offs) (Z.of_nat <$> idxs) buf
  = run_gd_max_pooling g err_y h_offs buf.
Proof.
  intros Hlen Hperm Hnd. rewrite run_max_scatter by done.
  rewrite enqueue_max_pairs.
  2:{ rewrite Hperm. apply Forall_forall. intros i Hi%elem_of_seq. lia. }
  pose proof (zip_as_pairs err_y h_offs Hlen) as Hzip. rewrite Hzip.
  destruct (direct_write g) eqn:Hd.
  - apply scatter_direct_schedule; [done| |by rewrite Hperm].
    rewrite Hperm, <-Hzip, fst_zip by lia. by apply Hnd.
  - apply scatter_atomic_schedule; [done|by rewrite Hperm].
Qed.

(** C3.  A work-item of max-pooling backward sends [err_y[idx]] to the one
    cell [h_offs[idx]]: by a plain store when [SLIDE_X >= KX] and
    [SLIDE_Y >= KY], by an atomic add otherwise; and over a destination
    filled with zeros the overlapping pass leaves in every cell the sum of
    the errors whose recorded position it is. *)
Theorem max_pooling_backward_scatter (err_y : list dtype) (h_offs : list Z) (n : nat) :
  length h_offs = length err_y →
  Forall (λ off, 0 ≤ off < Z.of_nat n)%Z h_offs →
  (∀ idx off e err_h,
     length err_h = n → h_offs !! idx = Some off → err_y !! idx = Some e →
     ((SLIDE_X g >= KX g ∧ SLIDE_Y g >= KY g)%Z →
        USE_ATOMICS g = false ∧
        gd_max_pooling g err_y h_offs (Z.of_nat idx) err_h
        = Some (<[Z.to_nat off := e]> err_h)) ∧
     ((SLIDE_X g < KX g ∨ SLIDE_Y g < KY g)%Z →
        USE_ATOMICS g = true ∧
        ∃ old, err_h !! Z.to_nat off = Some old ∧
          gd_max_pooling g err_y h_offs (Z.of_nat idx) err_h
          = Some (<[Z.to_nat off := old + e]> err_h)))
  ∧ ((SLIDE_X g < KX g ∨ SLIDE_Y g < KY g)%Z →
     ∃ r, run_gd_max_pooling g err_y h_offs (Buffer.zeros n) = Some r ∧
          length r = n ∧
          ∀ p, (p < n)%nat →
               r !! p = Some (gathered (zip h_offs err_y) (Z.of_nat p))).
Proof.
  intros Hlen Hrange. split.
  - intros idx off e err_h Hn Hoff He.
    rewrite (gd_max_pooling_store _ _ _ _ _ _ Hoff He).
    assert (0 ≤ off < Z.of_nat (length err_h))%Z as Hpos.
    { rewrite Hn. rewrite Forall_forall in Hrange. apply Hrange.
      by eapply list_elem_of_lookup_2. }
    pose proof direct_or_atomics g as Hda. split.
    + intros Hd%direct_write_true. rewrite Hd in Hda. split.
      * by destruct (USE_ATOMICS g).
      * by apply store_direct.
    + intros Hd%direct_write_false. rewrite Hd in Hda. split.
      * by destruct (USE_ATOMICS g).
      * by apply store_atomic.
  - intros Hd%direct_write_false. rewrite run_max_scatter by done.
    destruct (scatter_atomic g (zip h_offs err_y) (Buffer.zeros n) Hd)
      as (r & Hr & Hlr & Hval).
    { unfold Buffer.zeros. rewrite length_replicate. by apply zip_in_range. }
    exists r. split; [done|]. unfold Buffer.zeros in Hlr.
    rewrite length_replicate in Hlr. split; [done|]. intros p Hp.
    rewrite (Hval p 0 (lookup_zeros n p Hp)). f_equal. ring.
Qed.

(** C10.  Without overlap the pass is a sequence of plain stores: it goes
    through, every cell of [err_h] at a position that does not occur in
    [h_offs] keeps the value it had before the pass, and a cell whose value
    changed is listed in [h_offs] and holds an element of [err_y] recorded
    for it. *)
Theorem max_pooling_direct_frame (err_y : list dtype) (h_offs : list Z)
    (err_h : list dtype) :
  (SLIDE_X g >= KX g)%Z → (SLIDE_Y g >= KY g)%Z →
  length h_offs = length err_y →
  Forall (λ off, 0 ≤ off < Z.of_nat (length err_h))%Z h_offs →
  ∃ r, run_gd_max_pooling g err_y h_offs err_h = Some r ∧
       length r = length err_h ∧
       (∀ p, Z.of_nat p ∉ h_offs → r !! p = err_h !! p) ∧
       (∀ p v, r !! p = Some v → err_h !! p ≠ Some v →
          ∃ idx, h_offs !! idx = Some (Z.of_nat p) ∧ err_y !! idx = Some v).
Proof.
  intros Hx Hy Hlen Hrange.
  assert (direct_write g = true) as Hd by (by apply direct_write_true).
  rewrite run_max_scatter by done.
  destruct (scatter_direct g (zip h_offs err_y) err_h Hd)
    as (r & Hr & Hlr & Hframe & _).
  { by apply zip_in_range. }
  rewrite fst_zip in Hframe by lia.
  exists r. split; [done|]. split; [done|]. split; [done|].
  intros p v Hp Hne.
  destruct (scatter_direct_values g _ _ _ Hd Hr p v Hp) as [Hold|Hin]; [done|].
  apply list_elem_of_lookup in Hin as [idx Hidx].
  apply lookup_zip_with_Some in Hidx as (off & e & ? & Hoff & He). simplify_eq.
  eauto.
Qed.

(** C5.  Without overlap, for every valid offset array and a destination
    filled with zeros: the pass goes through, the destination sums to what
    [err_y] sums to, every error sits at its recorded position, and a unit
    impulse at output position [o] comes out as the unit impulse at
    [h_offs[o]]. *)
Theorem max_pooling_impulse_conservation (err_y : list dtype) (h_offs : list Z)
    (n : nat) :
  (SLIDE_X g >= KX g)%Z → (SLIDE_Y g >= KY g)%Z →
  length h_offs = length err_y → valid_offsets n h_offs →
  ∃ r, run_gd_max_pooling g err_y h_offs (Buffer.zeros n) = Some r ∧
       Buffer.total r = Buffer.total err_y ∧
       (∀ o off, h_offs !! o = Some off → r !! Z.to_nat off = err_y !! o) ∧
       (∀ o off, h_offs !! o = Some off →
          err_y = impulse (length err_y) o → r = impulse n (Z.to_nat off)).
Proof.
  intros Hx Hy Hlen [Hrange Hnd].
  assert (direct_write g = true) as Hd by (by apply direct_write_true).
  rewrite run_max_scatter by done.
  assert (length (Buffer.zeros n) = n) as Hzn by apply length_replicate.
  destruct (scatter_direct g (zip h_offs err_y) (Buffer.zeros n) Hd)
    as (r & Hr & Hlr & Hframe & Hval).
  { rewrite Hzn. by apply zip_in_range. }
  rewrite fst_zip in Hframe, Hval by lia. specialize (Hval Hnd).
  rewrite Hzn in Hlr.
  assert (∀ o off, h_offs !! o = Some off → r !! Z.to_nat off = err_y !! o) as Hroute.
  { intros o off Hoff.
    destruct (lookup_lt_is_Some_2 err_y o) as [e He].
    { rewrite <-Hlen. by eapply lookup_lt_Some. }
    rewrite He. apply Hval. apply list_elem_of_lookup. exists o.
    apply lookup_zip_with_Some. eauto. }
  exists r. split; [done|]. split; [|split; [done|]].
  - rewrite (scatter_direct_total g _ _ _ Hd) with (3 := Hr).
    + rewrite snd_zip by lia. rewrite total_zeros. ring.
    + by rewrite fst_zip by lia.
    + rewrite fst_zip by lia. intros pos Hpos. apply lookup_zeros.
      rewrite Forall_forall in Hrange. specialize (Hrange _ Hpos). lia.
  - intros o off Hoff Himp.
    assert (0 ≤ off < Z.of_nat n)%Z as Hoffn.
    { rewrite Forall_forall in Hrange. apply Hrange. by eapply list_elem_of_lookup_2. }
    assert (o < length err_y)%nat as Ho.
    { rewrite <-Hlen. by eapply lookup_lt_Some. }
    apply list_eq. intros i. unfold impulse.
    destruct (decide (i < n)%nat) as [Hi|Hi].
    2:{ rewrite !lookup_ge_None_2; [done| |lia].
        rewrite length_insert, Hzn. lia. }
    destruct (decide (i = Z.to_nat off)) as [->|Hne].
    + rewrite (Hroute o off Hoff), Himp. unfold impulse.
      rewrite !list_lookup_insert_eq; [done| |]; unfold Buffer.zeros;
        rewrite length_replicate; lia.
    + rewrite list_lookup_insert_ne by done. rewrite lookup_zeros by done.
      destruct (decide (Z.of_nat i ∈ h_offs)) as [Hin|Hnot].
      * apply list_elem_of_lookup in Hin as [o' Ho'].
        rewrite <-(Nat2Z.id i). rewrite (Hroute o' _ Ho'), Himp. unfold impulse.
        assert (o ≠ o') as Hoo by (intros ->; simplify_eq; lia).
        rewrite list_lookup_insert_ne by done. apply lookup_zeros.
        rewrite <-Hlen. by eapply lookup_lt_Some.
      * rewrite (Hframe i Hnot). by apply lookup_zeros.
Qed.

End MaxPooling.

(** ** Average-pooling backward *)

Section Clipped.
Import Pooling.

Lemma clipped_unfold (start limit : Z) (k : nat) :
  clipped start (Z.of_nat (S k)) limit
  = filter (λ x, x < limit)%Z (start :: []) ++ clipped (start + 1) (Z.of_nat k) limit.
Proof.
  unfold clipped. rewrite !Nat2Z.id. rewrite <-filter_app. f_equal.
  simpl. rewrite Z.add_0_r. f_equal.
  rewrite <-fmap_S_seq, <-list_fmap_compose. apply list_fmap_ext.
  intros _ t _. simpl. lia.
Qed.

Lemma clipped_cons (start limit : Z) (k : nat) :
  (start < limit)%Z →
  clipped start (Z.of_nat (S k)) limit = start :: clipped (start + 1) (Z.of_nat k) limit.
Proof. intros Hlt. rewrite clipped_unfold, filter_cons_True by done. done. Qed.

Lemma clipped_out (start limit k : Z) :
  (limit ≤ start)%Z → clipped start k limit = [].
Proof.
  intros Hle. unfold clipped. generalize (seq 0 (Z.to_nat k)). intros l.
  induction l as [|t l IH]; [done|].
  rewrite fmap_cons, filter_cons_False by lia. done.
Qed.

Lemma elem_of_clipped (start k limit x : Z) :
  x ∈ clipped start k limit ↔ (start ≤ x < start + k ∧ x < limit)%Z.
Proof.
  unfold clipped. rewrite list_elem_of_filter, list_elem_of_fmap. split.
  - intros (Hlt & t & -> & Ht). apply elem_of_seq in Ht. lia.
  - intros (Hx & Hlt). split; [done|]. exists (Z.to_nat (x - start)).
    split; [lia|]. apply elem_of_seq. lia.
Qed.

Lemma NoDup_clipped (start k limit : Z) : NoDup (clipped start k limit).
Proof.
  unfold clipped. apply NoDup_filter, NoDup_fmap_2; [|apply NoDup_seq].
  intros a b Hab. lia.
Qed.

Lemma length_clipped (start k limit : Z) :
  (0 ≤ k)%Z → (start ≤ limit)%Z →
  Z.of_nat (length (clipped start k limit)) = Z.min k (limit - start).
Proof.
  intros Hk. rewrite <-(Z2Nat.id k) by done.
  generalize (Z.to_nat k). clear. intros n. revert start.
  induction n as [|n IH]; intros start Hle.
  - unfold clipped. simpl. lia.
  - destruct (decide (start < limit)%Z) as [Hlt|Hge].
    + rewrite clipped_cons by done. simpl length. rewrite Nat2Z.inj_succ, IH by lia. lia.
    + rewrite clipped_out by lia. simpl. lia.
Qed.

End Clipped.

Section AvgPooling.
Import Pooling.
Context (g : Geometry).

Lemma scatter_app (a b : list (Z * dtype)) (buf : list dtype) :
  scatter g (a ++ b) buf = scatter g a buf ≫= scatter g b.
Proof.
  revert buf. induction a as [|[pos v] a IH]; intros buf; [done|].
  simpl. destruct (store g buf pos v) as [buf'|]; [|done]. simpl. apply IH.
Qed.

Lemma bind_unit_fmap {A B} (f : A → B) (l : list A) : l ≫= (λ x, [f x]) = f <$> l.
Proof. induction l as [|x l IH]; [done|]. by rewrite bind_cons, fmap_cons, IH. Qed.

Lemma MIN_min (a b : Z) : MIN a b = Z.min a b.
Proof. unfold MIN. case_decide; lia. Qed.

(** Where a work-item's output element lies. *)
Lemma decode_bounds (gid : Z) :
  well_formed g → (0 ≤ gid)%Z →
  (0 ≤ out_col g gid < OUT_SX g)%Z ∧ (0 ≤ out_channel g gid < N_CHANNELS g)%Z ∧
  (0 ≤ out_row g gid < OUT_SY g)%Z ∧ (0 ≤ out_image g gid)%Z.
Proof.
  intros [] Hgid. unfold out_col, out_channel, out_row, out_image.
  assert (0 < OUT_SX g * N_CHANNELS g)%Z as HM by lia.
  pose proof (Z.rem_bound_pos gid _ Hgid HM) as Htx.
  assert (0 ≤ Z.quot gid (OUT_SX g * N_CHANNELS g))%Z as Hty by (apply Z.quot_pos; lia).
  repeat split.
  - apply Z.quot_pos; lia.
  - apply Z.quot_lt_upper_bound; lia.
  - apply Z.rem_bound_pos; lia.
  - apply Z.rem_bound_pos; lia.
  - apply Z.rem_bound_pos; lia.
  - apply Z.rem_bound_pos; lia.
  - apply Z.quot_pos; lia.
Qed.

Lemma decode_image_bound (gid images : Z) :
  well_formed g → (0 ≤ gid < images * OUT_SY g * OUT_SX g * N_CHANNELS g)%Z →
  (out_image g gid < images)%Z.
Proof.
  intros [] Hgid. unfold out_image.
  assert (0 < OUT_SX g * N_CHANNELS g)%Z as HM by lia.
  apply Z.quot_lt_upper_bound; [apply Z.quot_pos; lia|lia|].
  apply Z.quot_lt_upper_bound; lia.
Qed.

Lemma decode_gid (gid : Z) :
  (Z.quot gid (OUT_SX g * N_CHANNELS g) * OUT_SX g * N_CHANNELS g
   + Z.rem gid (OUT_SX g * N_CHANNELS g))%Z = gid.
Proof.
  pose proof (Z.quot_rem' gid (OUT_SX g * N_CHANNELS g)) as Hqr. lia.
Qed.

Section Window.
Context (Hwf : well_formed g).
Context (b oy px ch : Z).
Context (Hpx : (0 ≤ px < OUT_SX g)%Z) (Hoy : (0 ≤ oy < OUT_SY g)%Z).
Context (Hch : (0 ≤ ch < N_CHANNELS g)%Z).

Lemma exact_x_fits : exact_x g = true → (px * SLIDE_X g + KX g ≤ SX g)%Z.
Proof.
  destruct Hwf. unfold exact_x. rewrite bool_decide_eq_true. nia.
Qed.

Lemma exact_y_fits : exact_y g = true → (oy * SLIDE_Y g + KY g ≤ SY g)%Z.
Proof.
  destruct Hwf. unfold exact_y. rewrite bool_decide_eq_true. nia.
Qed.

Lemma window_starts_inside :
  (px * SLIDE_X g < SX g)%Z ∧ (oy * SLIDE_Y g < SY g)%Z.
Proof. destruct Hwf. split; nia. Qed.

Lemma cond_x_spec (j : Z) :
  (0 ≤ j)%Z →
  cond_x g j ((px * SLIDE_X g + j) * N_CHANNELS g + ch)
  = bool_decide (j < KX g ∧ px * SLIDE_X g + j < SX g)%Z.
Proof.
  intros Hj. unfold cond_x. destruct (exact_x g) eqn:Hex.
  - apply exact_x_fits in Hex. apply bool_decide_ext. lia.
  - rewrite <-bool_decide_and. apply bool_decide_ext. destruct Hwf. nia.
Qed.

Lemma cond_y_spec (i : Z) :
  (0 ≤ i)%Z →
  cond_y g i (oy * SLIDE_Y g + i)
  = bool_decide (i < KY g ∧ oy * SLIDE_Y g + i < SY g)%Z.
Proof.
  intros Hi. unfold cond_y. destruct (exact_y g) eqn:Hex.
  - apply exact_y_fits in Hex. apply bool_decide_ext. lia.
  - rewrite <-bool_decide_and. apply bool_decide_ext. lia.
Qed.

(** The inner loop is the sequence of stores into the clipped columns. *)
Lemma loop_x_scatter (k : nat) (j offs : Z) (avg : dtype) (buf : list dtype) :
  (0 ≤ j)%Z → Z.of_nat k = (KX g - j)%Z →
  loop_x g k j ((px * SLIDE_X g + j) * N_CHANNELS g + ch) offs avg buf
  = scatter g ((λ x, (offs + (x * N_CHANNELS g + ch), avg)%Z)
               <$> clipped (px * SLIDE_X g + j) (Z.of_nat k) (SX g)) buf.
Proof.
  revert j buf. induction k as [|k IH]; intros j buf Hj Hk.
  - simpl. rewrite cond_x_spec by done. rewrite bool_decide_eq_false_2 by lia. done.
  - simpl loop_x. rewrite cond_x_spec by done.
    destruct (decide (px * SLIDE_X g + j < SX g)%Z) as [Hin|Hout].
    + rewrite bool_decide_eq_true_2 by lia. rewrite clipped_cons by done.
      rewrite fmap_cons. simpl scatter.
      destruct (store g buf _ avg) as [buf'|]; [|done]. simpl.
      replace ((px * SLIDE_X g + j) * N_CHANNELS g + ch + N_CHANNELS g)%Z
        with ((px * SLIDE_X g + (j + 1)) * N_CHANNELS g + ch)%Z by ring.
      rewrite IH by lia. do 3 f_equal. ring.
    + rewrite bool_decide_eq_false_2 by lia. rewrite clipped_out by lia. done.
Qed.

Lemma loop_x_row (y : Z) (avg : dtype) (buf : list dtype) :
  loop_x g (Z.to_nat (KX g)) 0 (px * SLIDE_X g * N_CHANNELS g + ch)
    ((b * SY g + y) * SX g * N_CHANNELS g) avg buf
  = scatter g ((λ p, (p, avg)) <$> row_cells g b px ch y) buf.
Proof.
  pose proof (loop_x_scatter (Z.to_nat (KX g)) 0
                ((b * SY g + y) * SX g * N_CHANNELS g) avg buf) as Hl.
  rewrite Z.add_0_r in Hl. rewrite Hl by (destruct Hwf; lia). f_equal.
  unfold row_cells, window_cols. rewrite bind_unit_fmap, <-list_fmap_compose.
  rewrite Z2Nat.id by (destruct Hwf; lia).
  apply list_fmap_ext. intros _ x _. simpl. f_equal. unfold cell. ring.
Qed.

(** The outer loop is the sequence of stores into the clipped rows. *)
Lemma loop_y_scatter (k : nat) (i : Z) (avg : dtype) (buf : list dtype) :
  (0 ≤ i)%Z → Z.of_nat k = (KY g - i)%Z →
  loop_y g k i (oy * SLIDE_Y g + i)
    ((b * SY g + (oy * SLIDE_Y g + i)) * SX g * N_CHANNELS g)
    (px * SLIDE_X g * N_CHANNELS g + ch) avg buf
  = scatter g ((λ p, (p, avg))
               <$> (clipped (oy * SLIDE_Y g + i) (Z.of_nat k) (SY g) ≫= row_cells g b px ch)) buf.
Proof.
  revert i buf. induction k as [|k IH]; intros i buf Hi Hk.
  - simpl. rewrite cond_y_spec by done. rewrite bool_decide_eq_false_2 by lia. done.
  - simpl loop_y. rewrite cond_y_spec by done.
    destruct (decide (oy * SLIDE_Y g + i < SY g)%Z) as [Hin|Hout].
    + rewrite bool_decide_eq_true_2 by lia. rewrite clipped_cons by done.
      rewrite bind_cons, fmap_app, scatter_app. rewrite loop_x_row.
      destruct (scatter g _ buf) as [buf'|]; [|done]. simpl.
      replace ((b * SY g + (oy * SLIDE_Y g + i)) * SX g * N_CHANNELS g
               + SX g * N_CHANNELS g)%Z
        with ((b * SY g + (oy * SLIDE_Y g + (i + 1))) * SX g * N_CHANNELS g)%Z by ring.
      replace (oy * SLIDE_Y g + i + 1)%Z with (oy * SLIDE_Y g + (i + 1))%Z by ring.
      rewrite IH by lia. done.
    + rewrite bool_decide_eq_false_2 by lia. rewrite clipped_out by lia. done.
Qed.

(** The divisor of the kernel is the size of the clipped window. *)
Lemma NX_cols (target_x : Z) :
  TARGET_PIXEL_X g target_x = px →
  NX g target_x = Z.of_nat (length (window_cols g px)).
Proof.
  intros Hp. unfold NX, window_cols. rewrite Hp.
  pose proof window_starts_inside as [Hsx _].
  rewrite length_clipped by (destruct Hwf; lia).
  destruct (exact_x g) eqn:Hex.
  - apply exact_x_fits in Hex. lia.
  - apply MIN_min.
Qed.

Lemma NY_rows (target_y : Z) :
  Z.rem target_y (OUT_SY g) = oy →
  NY g target_y = Z.of_nat (length (window_rows g oy)).
Proof.
  intros Hp. unfold NY, window_rows. rewrite Hp.
  pose proof window_starts_inside as [_ Hsy].
  rewrite length_clipped by (destruct Hwf; lia).
  destruct (exact_y g) eqn:Hex.
  - apply exact_y_fits in Hex. lia.
  - apply MIN_min.
Qed.

Lemma window_count_pos : (0 < window_count g px oy)%nat.
Proof.
  unfold window_count, window_cols, window_rows.
  pose proof window_starts_inside as [Hsx Hsy]. destruct Hwf.
  pose proof (length_clipped (px * SLIDE_X g) (KX g) (SX g)).
  pose proof (length_clipped (oy * SLIDE_Y g) (KY g) (SY g)).
  nia.
Qed.

End Window.

(** A work-item of average pooling is the sequence of stores of
    [err_y[gid] / count] into the cells of its clipped window. *)
Lemma gd_avg_pooling_scatter (err_y err_h : list dtype) (gid : Z) (e : dtype) :
  well_formed g → (0 ≤ gid)%Z → Buffer.get err_y gid = Some e →
  (NY g (Z.quot gid (OUT_SX g * N_CHANNELS g))
   * NX g (Z.rem gid (OUT_SX g * N_CHANNELS g)))%Z
  = Z.of_nat (window_count g (out_col g gid) (out_row g gid)) ∧
  gd_avg_pooling g err_y gid err_h
  = scatter g ((λ p, (p, e / Qc_of_Z (Z.of_nat
                        (window_count g (out_col g gid) (out_row g gid)))))
               <$> window_cells g gid) err_h.
Proof.
  intros Hwf Hgid He.
  destruct (decode_bounds gid Hwf Hgid) as (Hpx & Hch & Hoy & Hb).
  assert ((NY g (Z.quot gid (OUT_SX g * N_CHANNELS g))
           * NX g (Z.rem gid (OUT_SX g * N_CHANNELS g)))%Z
          = Z.of_nat (window_count g (out_col g gid) (out_row g gid))) as Hcount.
  { rewrite (NY_rows Hwf _ _ Hpx Hoy) by done.
    rewrite (NX_cols Hwf _ _ Hpx Hoy) by done.
    unfold window_count. lia. }
  split; [done|]. unfold gd_avg_pooling.
  rewrite decide_False by (destruct Hwf; lia). cbv zeta.
  rewrite decode_gid, He. simpl. rewrite Hcount.
  pose proof (window_count_pos Hwf _ _ Hpx Hoy) as Hpos.
  rewrite decide_False by lia.
  pose proof (loop_y_scatter Hwf (out_image g gid) (out_row g gid) (out_col g gid)
                (out_channel g gid) Hpx Hoy Hch (Z.to_nat (KY g)) 0) as Hl.
  rewrite Z.add_0_r in Hl. unfold window_cells, window_rows.
  rewrite <-(Z2Nat.id (KY g)) at 2 by (destruct Hwf; lia).
  rewrite <-Hl by (destruct Hwf; lia). done.
Qed.

Lemma elem_of_window_cells (gid p : Z) :
  p ∈ window_cells g gid ↔
  ∃ y x, y ∈ window_rows g (out_row g gid) ∧ x ∈ window_cols g (out_col g gid) ∧
         p = cell g (out_image g gid) y x (out_channel g gid).
Proof.
  unfold window_cells, row_cells. rewrite list_elem_of_bind. split.
  - intros (y & Hp & Hy). apply list_elem_of_bind in Hp as (x & Hp & Hx).
    apply list_elem_of_singleton in Hp. eauto.
  - intros (y & x & Hy & Hx & ->). exists y. split; [|done].
    apply list_elem_of_bind. exists x. split; [|done]. by apply list_elem_of_singleton.
Qed.

Lemma cell_range (images b y x ch : Z) :
  (0 ≤ b < images)%Z → (0 ≤ y < SY g)%Z → (0 ≤ x < SX g)%Z →
  (0 ≤ ch < N_CHANNELS g)%Z →
  (0 ≤ cell g b y x ch < images * SY g * SX g * N_CHANNELS g)%Z.
Proof.
  intros Hb Hy Hx Hch. unfold cell.
  assert (0 ≤ b * SY g + y ≤ images * SY g - 1)%Z as H1 by nia.
  assert (0 ≤ (b * SY g + y) * SX g + x ≤ images * SY g * SX g - 1)%Z as H2 by nia.
  nia.
Qed.

Lemma cell_inj (b y x y' x' ch : Z) :
  (0 ≤ x < SX g)%Z → (0 ≤ x' < SX g)%Z → (0 < N_CHANNELS g)%Z →
  cell g b y x ch = cell g b y' x' ch → y = y' ∧ x = x'.
Proof.
  unfold cell. intros Hx Hx' Hn Heq.
  assert ((b * SY g + y) * SX g + x = (b * SY g + y') * SX g + x')%Z as H1 by nia.
  assert (y = y') by nia. split; [done|]. subst. lia.
Qed.

Lemma window_cols_range (px x : Z) :
  (0 ≤ px)%Z → (0 < SLIDE_X g)%Z → x ∈ window_cols g px → (0 ≤ x < SX g)%Z.
Proof. unfold window_cols. rewrite elem_of_clipped. nia. Qed.

Lemma window_rows_range (oy y : Z) :
  (0 ≤ oy)%Z → (0 < SLIDE_Y g)%Z → y ∈ window_rows g oy → (0 ≤ y < SY g)%Z.
Proof. unfold window_rows. rewrite elem_of_clipped. nia. Qed.

Lemma window_cells_range (gid images : Z) :
  well_formed g → (0 ≤ gid < images * OUT_SY g * OUT_SX g * N_CHANNELS g)%Z →
  Forall (λ p, 0 ≤ p < images * SY g * SX g * N_CHANNELS g)%Z (window_cells g gid).
Proof.
  intros Hwf Hgid. apply Forall_forall. intros p Hp.
  apply elem_of_window_cells in Hp as (y & x & Hy & Hx & ->).
  destruct (decode_bounds gid Hwf) as (Hpx & Hch & Hoy & Hb); [lia|].
  pose proof (decode_image_bound gid images Hwf Hgid).
  apply cell_range; [lia| | |done].
  - eapply window_rows_range; [| |done]; destruct Hwf; lia.
  - eapply window_cols_range; [| |done]; destruct Hwf; lia.
Qed.

Lemma NoDup_window_cells (gid : Z) :
  well_formed g → (0 ≤ gid)%Z → NoDup (window_cells g gid).
Proof.
  intros Hwf Hgid.
  destruct (decode_bounds gid Hwf Hgid) as (Hpx & Hch & Hoy & Hb).
  assert (∀ x, x ∈ window_cols g (out_col g gid) → (0 ≤ x < SX g)%Z) as Hcols.
  { intros x. apply window_cols_range; destruct Hwf; lia. }
  unfold window_cells. apply NoDup_bind; [| |apply NoDup_clipped].
  - intros y1 y2 p _ _ Hp1 Hp2. unfold row_cells in *.
    apply list_elem_of_bind in Hp1 as (x1 & Hp1 & Hx1).
    apply list_elem_of_bind in Hp2 as (x2 & Hp2 & Hx2).
    apply list_elem_of_singleton in Hp1, Hp2. subst p.
    apply cell_inj in Hp2 as [? ?]; auto. destruct Hwf; lia.
  - intros y _. unfold row_cells. apply NoDup_bind; [| |apply NoDup_clipped].
    + intros x1 x2 p Hx1 Hx2 Hp1 Hp2.
      apply list_elem_of_singleton in Hp1, Hp2. subst p.
      apply cell_inj in Hp2 as [? ?]; auto. destruct Hwf; lia.
    + intros x _. apply NoDup_singleton.
Qed.

Lemma gathered_const (cells : list Z) (v : dtype) (p : Z) :
  NoDup cells →
  gathered ((λ q, (q, v)) <$> cells) p = if decide (p ∈ cells) then v else 0.
Proof.
  induction cells as [|q cells IH]; intros Hnd.
  - rewrite decide_False; [done|]. apply not_elem_of_nil.
  - apply NoDup_cons in Hnd as [Hfresh Hnd]. rewrite fmap_cons.
    cbn [gathered]. rewrite IH by done.
    destruct (decide (q = p)) as [->|Hne].
    + rewrite decide_False by done. rewrite decide_True by apply list_elem_of_here. ring.
    + destruct (decide (p ∈ cells)) as [Hin|Hnot].
      * rewrite decide_True; [done|]. by apply list_elem_of_further.
      * rewrite decide_False; [done|]. apply not_elem_of_cons. split; [congruence|done].
Qed.

(** C4, as amended.  A work-item of average-pooling backward divides its
    error by [NY * NX], which is the number of input pixels its window
    covers once clipped by the input edge, and sends the quotient to exactly
    the cells of that clipped window (stored when the windows do not
    overlap, added otherwise); all other cells keep their value.  For
    [SX = 5], [KX = 3], [SLIDE_X = 2] the only clipped window along x is the
    one of output column 2: it covers a single column and its [NX] is 1;
    every other window has [NX = 3]. *)
Theorem avg_pooling_backward_window (err_y err_h : list dtype) (gid images : Z)
    (e : dtype) :
  well_formed g →
  (0 ≤ gid < images * OUT_SY g * OUT_SX g * N_CHANNELS g)%Z →
  Buffer.get err_y gid = Some e →
  Z.of_nat (length err_h) = (images * SY g * SX g * N_CHANNELS g)%Z →
  let count := window_count g (out_col g gid) (out_row g gid) in
  let avg := e / Qc_of_Z (Z.of_nat count) in
  (NY g (Z.quot gid (OUT_SX g * N_CHANNELS g))
   * NX g (Z.rem gid (OUT_SX g * N_CHANNELS g)))%Z = Z.of_nat count ∧
  length (window_cells g gid) = count ∧
  (0 < count)%nat ∧
  (∃ r, gd_avg_pooling g err_y gid err_h = Some r ∧
        length r = length err_h ∧
        (∀ p old, Z.of_nat p ∈ window_cells g gid → err_h !! p = Some old →
           r !! p = Some (if direct_write g then avg else old + avg)) ∧
        (∀ p, Z.of_nat p ∉ window_cells g gid → r !! p = err_h !! p)) ∧
  (SX g = 5 → KX g = 3 → SLIDE_X g = 2 →
   NX g (Z.rem gid (OUT_SX g * N_CHANNELS g))
   = if decide (out_col g gid = 2) then 1 else 3)%Z.
Proof.
  intros Hwf Hgid He Hlen count avg.
  destruct (gd_avg_pooling_scatter err_y err_h gid e Hwf) as [Hcount Hrun];
    [lia|done|].
  destruct (decode_bounds gid Hwf) as (Hpx & Hch & Hoy & Hb); [lia|].
  pose proof (NoDup_window_cells gid Hwf) as Hnd.
  pose proof (window_cells_range gid images Hwf Hgid) as Hrange.
  fold count in Hcount, Hrun. fold avg in Hrun.
  split; [done|]. split.
  { unfold window_cells, count, window_count.
    generalize (window_rows g (out_row g gid)). intros rows.
    induction rows as [|y rows IH]; [done|].
    rewrite bind_cons, length_app, IH. unfold row_cells at 1.
    rewrite bind_unit_fmap, length_fmap. simpl. lia. }
  split; [by apply window_count_pos|]. split.
  - rewrite Hrun.
    assert (Forall (λ q : Z * dtype, 0 ≤ q.1 < Z.of_nat (length err_h))%Z
              ((λ p, (p, avg)) <$> window_cells g gid)) as Hps.
    { rewrite Forall_fmap. rewrite Hlen. eapply Forall_impl; [exact Hrange|]. done. }
    assert (((λ p : Z, (p, avg)) <$> window_cells g gid).*1 = window_cells g gid) as Hfst.
    { rewrite <-list_fmap_compose. apply list_fmap_id. }
    destruct (direct_write g) eqn:Hd.
    + destruct (scatter_direct g _ err_h Hd Hps) as (r & Hr & Hlr & Hframe & Hval).
      rewrite Hfst in Hframe, Hval.
      exists r. split; [done|]. split; [done|]. split; [|done].
      intros p old Hp _. rewrite <-(Nat2Z.id p). apply Hval; [apply Hnd; lia|].
      apply list_elem_of_fmap. eauto.
    + destruct (scatter_atomic g _ err_h Hd Hps) as (r & Hr & Hlr & Hval).
      exists r. split; [done|]. split; [done|]. split.
      * intros p old Hp Hold. rewrite (Hval p old Hold).
        rewrite gathered_const by (apply Hnd; lia). by rewrite decide_True.
      * intros p Hp. destruct (err_h !! p) as [old|] eqn:Hold.
        -- rewrite (Hval p old Hold).
           rewrite gathered_const by (apply Hnd; lia). rewrite decide_False by done.
           f_equal. ring.
        -- apply lookup_ge_None in Hold. apply lookup_ge_None. lia.
  - intros HSX HKX HSL. unfold NX, TARGET_PIXEL_X. fold (out_col g gid).
    unfold exact_x. rewrite MIN_min. destruct Hwf.
    case_bool_decide; case_decide; nia.
Qed.

Lemma radix_unique (a r a' r' n : Z) :
  (0 ≤ r < n)%Z → (0 ≤ r' < n)%Z → (a * n + r = a' * n + r')%Z → a = a' ∧ r = r'.
Proof. intros Hr Hr' Heq. assert (a = a') by nia. split; [done|]. subst. lia. Qed.

Lemma slot_unique (p p' s k x : Z) :
  (k ≤ s)%Z → (p * s ≤ x < p * s + k)%Z → (p' * s ≤ x < p' * s + k)%Z → p = p'.
Proof. intros Hk Hp Hp'. nia. Qed.

(** Windows that do not overlap share no cell. *)
Lemma windows_disjoint (gid1 gid2 p : Z) :
  well_formed g → (SLIDE_X g >= KX g)%Z → (SLIDE_Y g >= KY g)%Z →
  (0 ≤ gid1)%Z → (0 ≤ gid2)%Z →
  p ∈ window_cells g gid1 → p ∈ window_cells g gid2 → gid1 = gid2.
Proof.
  intros Hwf Hsx Hsy Hg1 Hg2 Hp1 Hp2.
  apply elem_of_window_cells in Hp1 as (y1 & x1 & Hy1 & Hx1 & Hc1).
  apply elem_of_window_cells in Hp2 as (y2 & x2 & Hy2 & Hx2 & Hc2).
  destruct (decode_bounds gid1 Hwf Hg1) as (Hpx1 & Hch1 & Hoy1 & Hb1).
  destruct (decode_bounds gid2 Hwf Hg2) as (Hpx2 & Hch2 & Hoy2 & Hb2).
  unfold window_rows, window_cols in *.
  apply elem_of_clipped in Hy1, Hy2, Hx1, Hx2.
  rewrite Hc1 in Hc2. unfold cell in Hc2.
  apply radix_unique in Hc2 as [Hc2 Hch]; [|done..].
  apply radix_unique in Hc2 as [Hc2 Hx]; [|destruct Hwf; nia..].
  apply radix_unique in Hc2 as [Hb Hy]; [|destruct Hwf; nia..].
  subst x2 y2.
  assert (out_col g gid1 = out_col g gid2) as Hpx.
  { eapply (slot_unique _ _ (SLIDE_X g) (KX g) x1); lia. }
  assert (out_row g gid1 = out_row g gid2) as Hoy.
  { eapply (slot_unique _ _ (SLIDE_Y g) (KY g) y1); lia. }
  rewrite <-(decode_gid gid1), <-(decode_gid gid2).
  set (M := (OUT_SX g * N_CHANNELS g)%Z) in *.
  pose proof (Z.quot_rem' (Z.rem gid1 M) (N_CHANNELS g)) as Ht1.
  pose proof (Z.quot_rem' (Z.rem gid2 M) (N_CHANNELS g)) as Ht2.
  pose proof (Z.quot_rem' (Z.quot gid1 M) (OUT_SY g)) as Hq1.
  pose proof (Z.quot_rem' (Z.quot gid2 M) (OUT_SY g)) as Hq2.
  unfold out_col, out_row, out_channel, out_image in *.
  fold M in Hpx, Hoy, Hch, Hb.
  rewrite Hpx, Hch in Ht1. rewrite Hoy, Hb in Hq1.
  assert (Z.rem gid1 M = Z.rem gid2 M) as -> by congruence.
  assert (Z.quot gid1 M = Z.quot gid2 M) as -> by congruence. done.
Qed.

(** The offsets a forward pass records over non-overlapping windows are
    valid for the backward pass. *)
Lemma argmax_offsets_valid (h_offs : list Z) (images : Z) :
  well_formed g → (SLIDE_X g >= KX g)%Z → (SLIDE_Y g >= KY g)%Z →
  argmax_offsets g h_offs →
  (Z.of_nat (length h_offs) ≤ images * OUT_SY g * OUT_SX g * N_CHANNELS g)%Z →
  valid_offsets (Z.to_nat (images * SY g * SX g * N_CHANNELS g)) h_offs.
Proof.
  intros Hwf Hsx Hsy Harg Hlen. split.
  - apply Forall_forall. intros off Hoff.
    apply list_elem_of_lookup in Hoff as [idx Hidx].
    pose proof (lookup_lt_Some _ _ _ Hidx) as Hi.
    pose proof (window_cells_range (Z.of_nat idx) images Hwf) as Hr.
    rewrite Forall_forall in Hr. specialize (Hr ltac:(lia) off (Harg _ _ Hidx)). lia.
  - apply NoDup_alt. intros i j off Hi Hj.
    apply Nat2Z.inj.
    apply (windows_disjoint _ _ off Hwf Hsx Hsy); [lia|lia|by apply Harg..].
Qed.

End AvgPooling.

(** ** The All2All unit *)

Section All2AllFacts.
Import Znicz.

Lemma mapM_pointwise {A B} (f : A → option B) (h : A → B) (l : list A) :
  (∀ x, x ∈ l → f x = Some (h x)) → mapM f l = Some (h <$> l).
Proof.
  intros Hf. apply mapM_Some_2, Forall2_fmap_r, Forall_Forall2_diag.
  by apply Forall_forall.
Qed.

Lemma sum_upto_dot (W x : list dtype) (n j m : nat) :
  (j < n)%nat → (m * n ≤ length W)%nat → (m ≤ length x)%nat →
  Simd.sum_upto m (λ k, a ← W !! (k * n + j)%nat;
                        b ← x !! (k * 1 + 0)%nat; Some (a * b))
  = Some (dot_column W x n j m).
Proof.
  intros Hj. induction m as [|m IH]; intros HW Hx; [done|].
  simpl. rewrite IH by lia. simpl. unfold mat.
  destruct (lookup_lt_is_Some_2 W (m * n + j)) as [a Ha]; [nia|].
  destruct (lookup_lt_is_Some_2 x m) as [b Hb]; [lia|].
  replace (m * 1 + 0)%nat with m by lia. rewrite Ha, Hb. done.
Qed.

Lemma multiply_transposed_column (W x : list dtype) (m n : nat) :
  length W = (m * n)%nat → length x = m →
  Simd.matrix_multiply_transposed x W m 1 m n
  = Some ((λ j, dot_column W x n j m) <$> seq 0 n).
Proof.
  intros HW Hx. unfold Simd.matrix_multiply_transposed.
  replace (n * 1)%nat with n by lia.
  apply mapM_pointwise. intros j Hj%elem_of_seq. cbv zeta.
  rewrite Nat.div_1_r, Nat.mod_1_r.
  replace (j `mod` 1)%nat with 0%nat by (symmetry; apply Nat.mod_1_r).
  apply sum_upto_dot; lia.
Qed.

Lemma matrix_add_bias (dots : nat → dtype) (b : list dtype) (n : nat) :
  length b = n →
  Simd.matrix_add (dots <$> seq 0 n) b 1 n
  = Some ((λ j, dots j + default 0 (b !! j)) <$> seq 0 n).
Proof.
  intros Hb. unfold Simd.matrix_add. replace (1 * n)%nat with n by lia.
  apply mapM_pointwise. intros j Hj%elem_of_seq.
  rewrite list_lookup_fmap, lookup_seq_lt by lia. simpl.
  destruct (lookup_lt_is_Some_2 b j) as [bj Hbj]; [lia|]. by rewrite Hbj.
Qed.

(** C1.  For weights [W] of shape [m x n], a bias of length [n] and an
    input of length [m], [Execute] returns, and what it writes is the
    activation applied elementwise to [W^T x + b]; with the identity
    activation it is [W^T x + b] itself, whose entry [j] is
    [sum over k of W[k][j] * x[k], plus b[j]]. *)
Theorem all2all_execute_reference (u : All2All) (x : list dtype) (m n : nat) :
  weights_length_ (fields u) = (m * n)%nat → bias_length_ (fields u) = n →
  length (weights_ (fields u)) = (m * n)%nat → length (bias_ (fields u)) = n →
  length x = m → (0 < n)%nat →
  let W := weights_ (fields u) in
  let b := bias_ (fields u) in
  Execute u x = Some (u, activation u <$> naive_reference W b x m n) ∧
  ((∀ v, activation u v = v) → Execute u x = Some (u, naive_reference W b x m n)) ∧
  (∀ j, (j < n)%nat →
     naive_reference W b x m n !! j
     = Some (dot_column W x n j m + default 0 (b !! j))).
Proof.
  intros Hwl Hbl HW Hb Hx Hn W b.
  assert (Execute u x = Some (u, activation u <$> naive_reference W b x m n)) as Hex.
  { unfold Execute, InputCount, OutputCount. rewrite Hwl, Hbl.
    rewrite Nat.div_mul by lia. cbv zeta.
    rewrite multiply_transposed_column by done. simpl.
    rewrite matrix_add_bias by done. simpl. do 2 f_equal.
    unfold ApplyActivationFunction, naive_reference.
    rewrite take_ge, drop_ge, app_nil_r; [done| |];
      rewrite length_fmap, length_seq; lia. }
  split; [done|]. split.
  - intros Hid. rewrite Hex. do 2 f_equal.
    rewrite <-(list_fmap_id (naive_reference W b x m n)) at 2.
    apply list_fmap_ext. intros _ v _. apply Hid.
  - intros j Hj. unfold naive_reference.
    rewrite list_lookup_fmap, lookup_seq_lt by done. done.
Qed.

(** C7.  [SetParameter] leaves the unit untouched and raises nothing when
    the name is not registered; when it is, the outcome is that of the bound
    setter, and a setter made by [GetSetter] answers [TypeMismatch] to a
    value whose type is not the one its field expects and writes the field
    otherwise.  The constructor registers exactly [weights], [bias],
    [weights_length] and [bias_length]. *)
Theorem set_parameter_dispatch (name : string) (value : Value) (u : All2All) :
  (setters_ u !! name = None → SetParameter name value u = inr u) ∧
  (∀ setter, setters_ u !! name = Some setter →
     SetParameter name value u
     = match setter value (fields u) with
       | inr s => inr (mkAll2All (setters_ u) s (activation u))
       | inl e => inl e
       end) ∧
  (∀ target, setters_ u !! name = Some (Attribute.GetSetter target) →
     (Attribute.expects target value = false →
        SetParameter name value u = inl TypeMismatch) ∧
     (Attribute.expects target value = true →
        ∃ s, SetParameter name value u = inr (mkAll2All (setters_ u) s (activation u)))) ∧
  (∀ act, dom (setters_ (All2All_new act))
          = ({["weights"; "bias"; "weights_length"; "bias_length"]} : gset string) ∧
          setters_ (All2All_new act) !! "weights"
          = Some (Attribute.GetSetter Ref_weights) ∧
          setters_ (All2All_new act) !! "bias"
          = Some (Attribute.GetSetter Ref_bias) ∧
          setters_ (All2All_new act) !! "weights_length"
          = Some (Attribute.GetSetter Ref_weights_length) ∧
          setters_ (All2All_new act) !! "bias_length"
          = Some (Attribute.GetSetter Ref_bias_length)).
Proof.
  unfold SetParameter. split; [|split; [|split]].
  - by intros ->.
  - by intros setter ->.
  - intros target ->. split; intros Hexp;
      destruct target, value; simpl in *; try done; eauto.
  - intros act. unfold All2All_new. simpl. split.
    + rewrite !dom_insert_L, dom_empty_L. set_solver.
    + repeat split; by simplify_map_eq.
Qed.

End All2AllFacts.

(** ** All2All over shared buffers *)

Section SharedFacts.





(** With buffers of the right sizes [Execute] returns. *)
Lemma execute_shared_returns (u : Shared.All2All) (in_ out : nat)
    (h : gmap nat (list dtype)) (x W b old : list dtype) (m n : nat) :
  h !! in_ = Some x → h !! Shared.weights_ u = Some W →
  h !! Shared.bias_ u = Some b → h !! out = Some old →
  Shared.weights_length_ u = (m * n)%nat → Shared.bias_length_ u = n →
  length W = (m * n)%nat → length b = n → length x = m →
  (0 < n ≤ length old)%nat →
  is_Some (Shared.Execute u in_ out h).
Proof.
  intros Hin HW Hb Hout Hwl Hbl HlW Hlb Hlx Hn.
  unfold Shared.Execute, Shared.mallocf, Shared.InputCount, Shared.OutputCount.
  rewrite Hwl, Hbl, Nat.div_mul by lia.
  set (tmp := fresh (dom h)).
  assert (h !! tmp = None) as Htmp by (apply not_elem_of_dom, is_fresh).
  assert (tmp ≠ in_ ∧ tmp ≠ Shared.weights_ u ∧ tmp ≠ Shared.bias_ u ∧ tmp ≠ out)
    as (Hti & Htw & Htb & Hto)
    by (repeat split; intros Heq; rewrite Heq in Htmp; congruence).
  unfold Shared.matrix_multiply_transposed.
  rewrite !lookup_insert_ne by done. rewrite Hin, HW. simpl.
  rewrite multiply_transposed_column by done. simpl.
  unfold Shared.write at 1. rewrite lookup_insert_eq. simpl.
  rewrite decide_True
    by (unfold Buffer.zeros; rewrite length_fmap, length_seq, length_replicate; lia).
  simpl. rewrite drop_ge, app_nil_r
    by (unfold Buffer.zeros; rewrite length_fmap, length_seq, length_replicate; lia).
  unfold Shared.matrix_add. rewrite lookup_insert_eq.
  rewrite !lookup_insert_ne by done. rewrite Hb. simpl.
  rewrite matrix_add_bias by done. simpl.
  unfold Shared.write. rewrite !lookup_insert_ne by done. rewrite Hout. simpl.
  rewrite decide_True by (rewrite length_fmap, length_seq; lia). simpl.
  unfold Shared.ApplyActivationFunction. rewrite lookup_insert_eq. simpl.
  rewrite decide_True by (rewrite length_app, length_fmap, length_seq; lia).
  simpl. eauto.
Qed.


End SharedFacts.

(** ** The weight update *)

Section GradientFacts.
Import GradientDescent.
Context (gradient_step_ortho : dtype → dtype → Z → Z → list dtype → dtype).
Context (blend : dtype → dtype → dtype → dtype).

Lemma SIGN_cases (x : dtype) :
  (0 < x → SIGN x = 1) ∧ (x < 0 → SIGN x = - 1) ∧ (x = 0 → SIGN x = 0).
Proof.
  assert (∀ a : dtype, ¬ a < a) as Hirr.
  { intros a Ha. by apply Qclt_not_eq in Ha. }
  unfold SIGN. repeat split; intros Hx; repeat case_decide; subst; try done.
  all: exfalso; first [by eapply Hirr, Qclt_trans | by eapply Hirr].
Qed.

(** C2.  The step computes [gd = -lr * (gradient + L1L2 + ortho)], the
    orthogonality term being there only when [USE_ORTHO > 0], with the column
    [idx / Y] when the weights are stored transposed and [idx % H] when they
    are not; and, the momentum being off, the weight stored back is
    [weight - lr * (gradient + L1L2 + ortho)]. *)
Theorem weights_update_rule (c : Config)
    (weights gradient gradient_with_moment col_sums : list dtype)
    (lr factor_l12 l1_vs_l2 moment factor_ortho : dtype)
    (idx : Z) (weight grad : dtype) :
  Buffer.get weights idx = Some weight →
  Buffer.get gradient idx = Some grad →
  ¬ (0 < moment) →
  let column :=
    if decide (WEIGHTS_TRANSPOSED c > 0)%Z then Z.quot idx (Y c) else Z.rem idx (H c) in
  let OrthogonalityPenalty :=
    if decide (USE_ORTHO c > 0)%Z
    then gradient_step_ortho weight factor_ortho column (Y c) col_sums else 0 in
  let L1L2Penalty := gradient_step_l12 weight factor_l12 l1_vs_l2 in
  gd gradient_step_ortho c lr grad weight factor_l12 l1_vs_l2 factor_ortho idx col_sums
  = - lr * (grad + L1L2Penalty + OrthogonalityPenalty) ∧
  weights_update gradient_step_ortho c blend weights gradient gradient_with_moment
    lr factor_l12 l1_vs_l2 moment factor_ortho col_sums idx
  = Some (<[Z.to_nat idx :=
             weight - lr * (grad + L1L2Penalty + OrthogonalityPenalty)]> weights).
Proof.
  intros Hw Hg Hm column OrthogonalityPenalty L1L2Penalty.
  assert (gd gradient_step_ortho c lr grad weight factor_l12 l1_vs_l2
            factor_ortho idx col_sums
          = - lr * (grad + L1L2Penalty + OrthogonalityPenalty)) as Hgd.
  { unfold gd, OrthogonalityPenalty, column, ortho_column, L1L2Penalty.
    case_decide; [done|]. ring. }
  split; [done|]. unfold weights_update. rewrite Hg, Hw. simpl.
  unfold store_output. rewrite decide_False by done. simpl. rewrite Hgd.
  apply get_Some_range in Hw as [Hidx _]. rewrite set_in_range by done.
  do 2 f_equal. ring.
Qed.

(** C6.  With [l1_vs_l2 = 0] the regularization term is the pure L2
    gradient [factor_l12 * w]; with [l1_vs_l2 = 1] it is the pure L1
    gradient [factor_l12 * sign(w)]. *)
Theorem l12_pure_cases (w factor_l12 : dtype) :
  gradient_step_l12 w factor_l12 0 = factor_l12 * w ∧
  gradient_step_l12 w factor_l12 1 = factor_l12 * SIGN w.
Proof. unfold gradient_step_l12. split; ring. Qed.

End GradientFacts.

(** ** The denormalization template *)

Section DenormalizationFacts.
Import Denormalization.

Lemma recognized_cases (normalization : string) :
  recognized normalization ↔
  normalization = "none" ∨ normalization = "pointwise" ∨
  normalization = "mean_disp" ∨ normalization = "range_linear".
Proof.
  unfold recognized. rewrite !elem_of_cons, elem_of_nil. tauto.
Qed.

(** C8.  For a normalization mode outside none, pointwise, mean_disp and
    range_linear the body of [denormalize] renders to the [#error]
    directive, which the compiler rejects: the build ends in a configuration
    error and yields no kernel.  For each of the four modes the body renders
    to a return statement and compiles to a kernel. *)
Theorem denormalize_modes (normalization : string) :
  (¬ recognized normalization →
     render_denormalize normalization
     = ErrorDirective "Unsupported normalization type" ∧
     (∀ consts, compile consts (render_denormalize normalization)
                = inl (UnsupportedNormalization "Unsupported normalization type")) ∧
     (∀ coeffs, build normalization coeffs
                = Some (inl (UnsupportedNormalization "Unsupported normalization type")))) ∧
  (recognized normalization →
     ∃ e, render_denormalize normalization = Return e ∧
          (∀ consts, compile consts (render_denormalize normalization)
                     = inr (mkKernel (eval consts e))) ∧
          (∀ coeffs consts, render_constants normalization coeffs = Some consts →
             build normalization coeffs = Some (inr (mkKernel (eval consts e))))).
Proof.
  rewrite recognized_cases. split.
  - intros Hnot.
    assert (∀ mode, mode ∈ ["none"; "pointwise"; "mean_disp"; "range_linear"] →
                    String.eqb normalization mode = false) as Hne.
    { intros mode Hmode. apply String.eqb_neq. intros ->.
      by apply Hnot, recognized_cases. }
    assert (render_denormalize normalization
            = ErrorDirective "Unsupported normalization type") as Hr.
    { unfold render_denormalize. rewrite !Hne by set_solver. done. }
    split; [done|]. split.
    + intros consts. by rewrite Hr.
    + intros coeffs. unfold build, render_constants. rewrite Hr.
      rewrite !Hne by set_solver. done.
  - intros [-> | [-> | [-> | ->]]]; eexists; (split; [reflexivity|]);
      (split; [done|]); intros coeffs consts Hc; unfold build; by rewrite Hc.
Qed.

End DenormalizationFacts.

(** * The theorems at concrete inputs *)

Section Instances.
Import Pooling Znicz GradientDescent Denormalization.

(** A 2 x 3 weight matrix, identity activation. *)
Lemma all2all_execute_reference_witness :
  snd <$> Execute
    (mkAll2All ∅ (mkFields (Qc_of_Z <$> [1; 2; 3; 4; 5; 6]%Z)
                           (Qc_of_Z <$> [10; 20; 30]%Z) 6 3) id)
    (Qc_of_Z <$> [1; 0]%Z)
  = Some (Qc_of_Z <$> [11; 22; 33]%Z).
Proof.
  destruct (all2all_execute_reference
              (mkAll2All ∅ (mkFields (Qc_of_Z <$> [1; 2; 3; 4; 5; 6]%Z)
                                     (Qc_of_Z <$> [10; 20; 30]%Z) 6 3) id)
              (Qc_of_Z <$> [1; 0]%Z) 2 3) as (_ & Hid & _);
    [reflexivity | reflexivity | reflexivity | reflexivity | reflexivity | lia |].
  rewrite Hid by done. by_computation.
Defined.



(** An unknown name, and a size handed to the [weights] binding. *)
Lemma set_parameter_dispatch_witness :
  SetParameter "momentum" (VSize 3) (All2All_new id) = inr (All2All_new id) ∧
  SetParameter "weights" (VSize 3) (All2All_new id) = inl TypeMismatch.
Proof.
  split.
  - apply (proj1 (set_parameter_dispatch "momentum" (VSize 3) (All2All_new id))).
    vm_compute. reflexivity.
  - destruct (set_parameter_dispatch "weights" (VSize 3) (All2All_new id))
      as (_ & _ & Hset & _).
    apply (Hset Ref_weights); [vm_compute|]; reflexivity.
Defined.

(** One step with the orthogonality term on, weights not transposed. *)
Lemma weights_update_rule_witness :
  let ortho := λ (w f : dtype) (col _ : Z) (sums : list dtype),
                 f * (default 0 (Buffer.get sums col) - w) in
  let blend := λ m gd_ previous : dtype, gd_ + m * previous in
  weights_update ortho (mkConfig 1 0 2 2) blend
    (Qc_of_Z <$> [4; 5; 6; 7]%Z) (Qc_of_Z <$> [1; 1; 1; 1]%Z)
    (Qc_of_Z <$> [0; 0; 0; 0]%Z)
    1 1 0 0 1 (Qc_of_Z <$> [8; 9]%Z) 1
  = Some (Qc_of_Z <$> [4; -5; 6; 7]%Z).
Proof.
  intros ortho blend.
  destruct (weights_update_rule ortho blend (mkConfig 1 0 2 2)
              (Qc_of_Z <$> [4; 5; 6; 7]%Z) (Qc_of_Z <$> [1; 1; 1; 1]%Z)
              (Qc_of_Z <$> [0; 0; 0; 0]%Z) (Qc_of_Z <$> [8; 9]%Z)
              1 1 0 0 1 1 (Qc_of_Z 5) (Qc_of_Z 1)) as [_ Hstep];
    [reflexivity | reflexivity | by vm_compute |].
  rewrite Hstep. by_computation.
Defined.

(** Overlapping windows: two errors recorded for the same cell add up. *)
Lemma max_pooling_backward_scatter_witness :
  run_gd_max_pooling (mkGeometry 5 1 1 3 1 2 1 3 1)
    (Qc_of_Z <$> [1; 2; 3]%Z) [2; 2; 4]%Z (Buffer.zeros 5)
  = Some (Qc_of_Z <$> [0; 0; 3; 0; 3]%Z).
Proof.
  destruct (max_pooling_backward_scatter (mkGeometry 5 1 1 3 1 2 1 3 1)
              (Qc_of_Z <$> [1; 2; 3]%Z) [2; 2; 4]%Z 5) as [_ Hrun];
    [reflexivity | repeat constructor; simpl; lia |].
  destruct Hrun as (r & Hr & Hlen & Hval); [left; simpl; lia|].
  rewrite Hr. f_equal. apply list_eq. intros [|[|[|[|[|p]]]]].
  1-5: rewrite Hval by lia; by_computation.
  rewrite !lookup_ge_None_2; [done|simpl; lia|lia].
Defined.

(** Disjoint windows, a destination with stale contents. *)
Lemma max_pooling_direct_frame_witness :
  ∃ r, run_gd_max_pooling (mkGeometry 4 1 1 2 1 2 1 2 1)
         (Qc_of_Z <$> [5; 7]%Z) [1; 2]%Z (Qc_of_Z <$> [9; 9; 9; 9]%Z) = Some r ∧
       r !! 0%nat = Some (Qc_of_Z 9) ∧ r !! 3%nat = Some (Qc_of_Z 9).
Proof.
  destruct (max_pooling_direct_frame (mkGeometry 4 1 1 2 1 2 1 2 1)
              (Qc_of_Z <$> [5; 7]%Z) [1; 2]%Z (Qc_of_Z <$> [9; 9; 9; 9]%Z))
    as (r & Hr & _ & Hframe & _);
    [simpl; lia | simpl; lia | reflexivity | repeat constructor; simpl; lia |].
  exists r. split; [done|]. rewrite !Hframe; [done|by_computation..].
Defined.

(** Disjoint windows, a unit impulse at output position 1. *)
Lemma max_pooling_impulse_conservation_witness :
  run_gd_max_pooling (mkGeometry 4 1 1 2 1 2 1 2 1)
    (impulse 2 1) [1; 2]%Z (Buffer.zeros 4) = Some (impulse 4 2).
Proof.
  destruct (max_pooling_impulse_conservation (mkGeometry 4 1 1 2 1 2 1 2 1)
              (impulse 2 1) [1; 2]%Z 4) as (r & Hr & _ & _ & Himp);
    [simpl; lia | simpl; lia | reflexivity | |].
  { split; [repeat constructor; simpl; lia | by_computation]. }
  rewrite Hr. f_equal. apply (Himp 1%nat 2%Z); reflexivity.
Defined.

(** The geometry [SX = 5], [KX = 3], [SLIDE_X = 2] with three windows. *)
Lemma avg_pooling_backward_window_witness :
  (∃ r, gd_avg_pooling (mkGeometry 5 1 1 3 1 2 1 3 1)
          (Qc_of_Z <$> [6; 6; 6]%Z) 2 (Buffer.zeros 5) = Some r ∧
        r !! 4%nat = Some (Qc_of_Z 6)) ∧
  NX (mkGeometry 5 1 1 3 1 2 1 3 1) 2 = 1%Z.
Proof.
  destruct (avg_pooling_backward_window (mkGeometry 5 1 1 3 1 2 1 3 1)
              (Qc_of_Z <$> [6; 6; 6]%Z) (Buffer.zeros 5) 2 1 (Qc_of_Z 6))
    as (_ & _ & _ & (r & Hr & _ & Hin & _) & Hnx);
    [constructor; simpl; lia | simpl; lia | reflexivity | reflexivity |].
  split.
  - exists r. split; [done|].
    rewrite (Hin 4%nat 0); [by_computation | by_computation | reflexivity].
  - apply Hnx; reflexivity.
Defined.

(** An unknown mode and a known one. *)
Lemma denormalize_modes_witness :
  render_denormalize "minmax" = ErrorDirective "Unsupported normalization type" ∧
  ∃ e, render_denormalize "mean_disp" = Return e.
Proof.
  split.
  - apply (proj1 (denormalize_modes "minmax")). unfold recognized. by_computation.
  - destruct (proj2 (denormalize_modes "mean_disp")) as (e & He & _).
    + unfold recognized. by_computation.
    + by exists e.
Defined.

(** C4, the claim as written, fails: with [SX = 5], [KX = 3], [SLIDE_X = 2]
    and three windows along x, the clipped final window (output column 2)
    covers the single cell 4 and divides by 1, not by 2: a uniform error 6
    puts 6 there, not 3. *)
Lemma avg_pooling_final_window_divisor_is_not_2 :
  let g := mkGeometry 5 1 1 3 1 2 1 3 1 in
  let c := Qc_of_Z 6 in
  well_formed g ∧
  window_cells g 2 = [4%Z] ∧
  (NY g (Z.quot 2 (OUT_SX g * N_CHANNELS g))
   * NX g (Z.rem 2 (OUT_SX g * N_CHANNELS g)))%Z = 1%Z ∧
  (NY g (Z.quot 2 (OUT_SX g * N_CHANNELS g))
   * NX g (Z.rem 2 (OUT_SX g * N_CHANNELS g)))%Z ≠ 2%Z ∧
  gd_avg_pooling g [c; c; c] 2 (Buffer.zeros 5) = Some [0; 0; 0; 0; c] ∧
  gd_avg_pooling g [c; c; c] 2 (Buffer.zeros 5) ≠ Some [0; 0; 0; 0; c / (1 + 1)] ∧
  run_gd_avg_pooling g [c; c; c] (Buffer.zeros 5)
  = Some (Qc_of_Z <$> [2; 2; 4; 2; 8]%Z).
Proof.
  intros g c. split; [constructor; simpl; lia|].
  repeat split; by_computation.
Qed.

End Instances.

(** * Further properties of the kernels *)

(** ** Max-pooling backward: bounds, schedules, overwriting *)

Section MaxPoolingMore.
Import Pooling.
Context (g : Geometry).

(** X1.  With as many offsets as errors, the launch of max-pooling backward
    stays inside [err_h], in either mode, exactly when every recorded offset
    is a position of [err_h]; and it never changes the length of [err_h]. *)
Theorem max_pooling_launch_in_bounds (err_y : list dtype) (h_offs : list Z)
    (err_h : list dtype) :
  length h_offs = length err_y →
  (is_Some (run_gd_max_pooling g err_y h_offs err_h)
   ↔ Forall (λ off, 0 ≤ off < Z.of_nat (length err_h))%Z h_offs) ∧
  (∀ r, run_gd_max_pooling g err_y h_offs err_h = Some r →
        length r = length err_h).
Proof.
  intros Hlen. rewrite run_max_scatter by done. split.
  - rewrite scatter_is_Some. split.
    + intros Hz. rewrite <-(fst_zip h_offs err_y) by lia.
      by apply Forall_fmap.
    + by apply zip_in_range.
  - intros r Hr.
    assert (Forall (λ q : Z * dtype, 0 ≤ q.1 < Z.of_nat (length err_h))%Z
              (zip h_offs err_y)) as Hps by (apply (scatter_is_Some g); eauto).
    destruct (direct_write g) eqn:Hd.
    + destruct (scatter_direct g _ err_h Hd Hps) as (r' & Hr' & Hl & _). congruence.
    + destruct (scatter_atomic g _ err_h Hd Hps) as (r' & Hr' & Hl & _). congruence.
Qed.

(** X2.  When no cell is recorded twice the work-items of max-pooling
    backward can run in any order: for every permutation of the index range
    the resulting buffer is that of the launch in increasing order, in
    either build (every cell then receives at most one store or one add). *)
Theorem max_pooling_any_schedule (err_y : list dtype) (h_offs : list Z)
    (idxs : list nat) (err_h : list dtype) :
  length h_offs = length err_y →
  idxs ≡ₚ seq 0 (length err_y) →
  NoDup h_offs →
  enqueue (gd_max_pooling g err_y h_offs) (Z.of_nat <$> idxs) err_h
  = run_gd_max_pooling g err_y h_offs err_h.
Proof.
  intros Hlen Hperm Hnd. apply max_pooling_schedule; [done..|]. by intros _.
Qed.

Lemma scatter_direct_written (ps : list (Z * dtype)) (buf r : list dtype) :
  direct_write g = true → scatter g ps buf = Some r →
  ∀ pos, pos ∈ ps.*1 → ∃ v, (pos, v) ∈ ps ∧ r !! Z.to_nat pos = Some v.
Proof.
  intros Hd. revert buf. induction ps as [|[p0 v0] ps IH]; intros buf Hr pos Hpos.
  - by apply elem_of_nil in Hpos.
  - simpl in Hr. destruct (store g buf p0 v0) as [buf'|] eqn:Hst; [|done].
    simpl in Hr. destruct (decide (pos ∈ ps.*1)) as [Hin|Hnot].
    + destruct (IH _ Hr pos Hin) as (v & Hv & Hrv). exists v.
      split; [by apply list_elem_of_further|done].
    + apply elem_of_cons in Hpos as [->|Hpos]; [|done].
      pose proof (store_Some _ _ _ _ _ Hst) as [Hp0 _].
      rewrite (store_direct g buf p0 v0 Hd Hp0) in Hst. simplify_eq.
      assert (is_Some (scatter g ps (<[Z.to_nat p0 := v0]> buf))) as Hps by eauto.
      apply scatter_is_Some in Hps.
      destruct (scatter_direct g ps _ Hd Hps) as (r' & Hr' & _ & Hframe & _).
      rewrite Hr' in Hr. simplify_eq. exists v0. split; [apply list_elem_of_here|].
      simpl in *. rewrite Hframe by (by rewrite Z2Nat.id by lia).
      apply list_lookup_insert_eq. lia.
Qed.

(** X3.  With plain stores, in whatever order the work-items run, a cell
    that is recorded ends up holding the error of one of the work-items
    that recorded it: when several recorded it, one error survives and the
    others are overwritten, never added. *)
Theorem max_pooling_direct_one_writer_survives (err_y : list dtype)
    (h_offs : list Z) (idxs : list nat) (err_h : list dtype) :
  (SLIDE_X g >= KX g)%Z → (SLIDE_Y g >= KY g)%Z →
  length h_offs = length err_y →
  Forall (λ off, 0 ≤ off < Z.of_nat (length err_h))%Z h_offs →
  idxs ≡ₚ seq 0 (length err_y) →
  ∃ r, enqueue (gd_max_pooling g err_y h_offs) (Z.of_nat <$> idxs) err_h = Some r ∧
       ∀ j off, h_offs !! j = Some off →
                ∃ j', h_offs !! j' = Some off ∧ r !! Z.to_nat off = err_y !! j'.
Proof.
  intros Hx Hy Hlen Hrange Hperm.
  assert (direct_write g = true) as Hd by (by apply direct_write_true).
  rewrite enqueue_max_pairs.
  2:{ rewrite Hperm. apply Forall_forall. intros i Hi%elem_of_seq. lia. }
  pose proof (zip_as_pairs err_y h_offs Hlen) as Hzip.
  set (pairs := λ i : nat, (default 0%Z (h_offs !! i), default 0 (err_y !! i))) in *.
  assert (pairs <$> idxs ≡ₚ zip h_offs err_y) as Hpz by (by rewrite Hzip, Hperm).
  assert (Forall (λ q : Z * dtype, 0 ≤ q.1 < Z.of_nat (length err_h))%Z
            (pairs <$> idxs)) as Hps.
  { rewrite Hpz. by apply zip_in_range. }
  destruct (scatter_direct g _ err_h Hd Hps) as (r & Hr & _).
  exists r. split; [done|]. intros j off Hoff.
  destruct (scatter_direct_written _ _ _ Hd Hr off) as (v & Hv & Hrv).
  { rewrite Hpz, fst_zip by lia. by eapply list_elem_of_lookup_2. }
  rewrite Hpz in Hv. apply list_elem_of_lookup in Hv as [j' Hj'].
  apply lookup_zip_with_Some in Hj' as (off' & e & ? & Hoff' & He). simplify_eq.
  exists j'. by rewrite He.
Qed.

End MaxPoolingMore.

(** ** Average-pooling backward: divisor, bounds, windows, schedules *)

Section AvgPoolingMore.
Import Pooling.
Context (g : Geometry).

Lemma gd_avg_pooling_stores (err_y buf : list dtype) (gid : nat) :
  well_formed g → (gid < length err_y)%nat →
  gd_avg_pooling g err_y (Z.of_nat gid) buf = scatter g (avg_stores g err_y gid) buf.
Proof.
  intros Hwf Hgid. destruct (lookup_lt_is_Some_2 err_y gid Hgid) as [e He].
  destruct (gd_avg_pooling_scatter g err_y buf (Z.of_nat gid) e Hwf) as [_ ->];
    [lia|by rewrite get_of_nat|].
  unfold avg_stores. by rewrite He.
Qed.

Lemma enqueue_avg_scatter (err_y buf : list dtype) (idxs : list nat) :
  well_formed g → Forall (λ i, i < length err_y)%nat idxs →
  enqueue (gd_avg_pooling g err_y) (Z.of_nat <$> idxs) buf
  = scatter g (idxs ≫= avg_stores g err_y) buf.
Proof.
  intros Hwf. revert buf. induction idxs as [|i idxs IH]; intros buf Hin; [done|].
  apply Forall_cons in Hin as [Hi Hin].
  rewrite fmap_cons, bind_cons, scatter_app. simpl.
  rewrite gd_avg_pooling_stores by done.
  destruct (scatter g (avg_stores g err_y i) buf) as [buf'|]; [|done]. simpl.
  by apply IH.
Qed.

Lemma avg_stores_cells (err_y : list dtype) (idxs : list nat) :
  (idxs ≫= avg_stores g err_y).*1 = idxs ≫= (λ i, window_cells g (Z.of_nat i)).
Proof.
  induction idxs as [|i idxs IH]; [done|].
  rewrite !bind_cons, fmap_app, IH. f_equal.
  unfold avg_stores. rewrite <-list_fmap_compose. apply list_fmap_id.
Qed.

Lemma launch_cells_NoDup (idxs : list nat) :
  well_formed g → direct_write g = true → NoDup idxs →
  NoDup (idxs ≫= (λ i, window_cells g (Z.of_nat i))).
Proof.
  intros Hwf [Hx Hy]%direct_write_true Hnd. apply NoDup_bind; [| |done].
  - intros i j p _ _ Hi Hj. apply Nat2Z.inj.
    apply (windows_disjoint g _ _ p Hwf Hx Hy); [lia|lia|done..].
  - intros i _. apply NoDup_window_cells; [done|lia].
Qed.

(** X5.  For a well-formed geometry the divisor [NY * NX] of a work-item is
    at least 1 (the kernel never divides by zero) and at most the kernel
    area [KX * KY], which it equals exactly when the window lies entirely
    inside the input. *)
Theorem avg_pooling_divisor_bounds (gid : Z) :
  well_formed g → (0 ≤ gid)%Z →
  let d := (NY g (Z.quot gid (OUT_SX g * N_CHANNELS g))
            * NX g (Z.rem gid (OUT_SX g * N_CHANNELS g)))%Z in
  (1 ≤ d ≤ KY g * KX g)%Z ∧
  (d = KY g * KX g ↔
   out_col g gid * SLIDE_X g + KX g ≤ SX g ∧
   out_row g gid * SLIDE_Y g + KY g ≤ SY g)%Z.
Proof.
  intros Hwf Hgid d.
  destruct (decode_bounds g gid Hwf Hgid) as (Hpx & _ & Hoy & _).
  pose proof (NX_cols g Hwf _ _ Hpx Hoy (Z.rem gid (OUT_SX g * N_CHANNELS g)) eq_refl) as HNX.
  pose proof (NY_rows g Hwf _ _ Hpx Hoy (Z.quot gid (OUT_SX g * N_CHANNELS g)) eq_refl) as HNY.
  pose proof (window_starts_inside g Hwf _ _ Hpx Hoy) as [Hsx Hsy].
  unfold window_cols in HNX. unfold window_rows in HNY.
  rewrite length_clipped in HNX, HNY by (destruct Hwf; lia).
  subst d. rewrite HNX, HNY. destruct Hwf. split; [nia|]. split; [nia|].
  intros [? ?]. rewrite !Z.min_l by lia. done.
Qed.

(** X6.  A work-item of average pooling stays inside [err_h] exactly when
    every cell of its clipped window is a position of [err_h]; it never
    changes the length of [err_h]. *)
Theorem avg_pooling_item_in_bounds (err_y err_h : list dtype) (gid : nat) :
  well_formed g → (gid < length err_y)%nat →
  (is_Some (gd_avg_pooling g err_y (Z.of_nat gid) err_h)
   ↔ Forall (λ p, 0 ≤ p < Z.of_nat (length err_h))%Z (window_cells g (Z.of_nat gid))) ∧
  (∀ r, gd_avg_pooling g err_y (Z.of_nat gid) err_h = Some r →
        length r = length err_h).
Proof.
  intros Hwf Hgid. rewrite gd_avg_pooling_stores by done.
  assert (Forall (λ q : Z * dtype, 0 ≤ q.1 < Z.of_nat (length err_h))%Z
            (avg_stores g err_y gid)
          ↔ Forall (λ p, 0 ≤ p < Z.of_nat (length err_h))%Z
              (window_cells g (Z.of_nat gid))) as Hiff.
  { unfold avg_stores. by rewrite Forall_fmap. }
  split.
  - by rewrite scatter_is_Some.
  - intros r Hr.
    assert (Forall (λ q : Z * dtype, 0 ≤ q.1 < Z.of_nat (length err_h))%Z
              (avg_stores g err_y gid)) as Hps by (apply (scatter_is_Some g); eauto).
    destruct (direct_write g) eqn:Hd.
    + destruct (scatter_direct g _ err_h Hd Hps) as (r' & Hr' & Hl & _). congruence.
    + destruct (scatter_atomic g _ err_h Hd Hps) as (r' & Hr' & Hl & _). congruence.
Qed.

(** X7.  Every cell a work-item of average pooling touches belongs to the
    image of its own output element and to its own channel. *)
Theorem avg_pooling_item_own_image (gid p : Z) :
  well_formed g → (0 ≤ gid)%Z → p ∈ window_cells g gid →
  (out_image g gid * (SY g * SX g * N_CHANNELS g) ≤ p
   < (out_image g gid + 1) * (SY g * SX g * N_CHANNELS g))%Z ∧
  Z.rem p (N_CHANNELS g) = out_channel g gid.
Proof.
  intros Hwf Hgid Hp.
  destruct (decode_bounds g gid Hwf Hgid) as (Hpx & Hch & Hoy & Hb).
  apply elem_of_window_cells in Hp as (y & x & Hy & Hx & ->).
  apply window_rows_range in Hy; [|destruct Hwf; lia..].
  apply window_cols_range in Hx; [|destruct Hwf; lia..].
  unfold cell. split.
  - assert (0 ≤ y * SX g + x ≤ SY g * SX g - 1)%Z by nia.
    destruct Hwf. nia.
  - symmetry. apply (Z.rem_unique _ _ ((out_image g gid * SY g + y) * SX g + x)).
    + destruct Hwf. nia.
    + lia.
    + ring.
Qed.

(** X8.  When [SLIDE_X >= KX] and [SLIDE_Y >= KY] the windows of two
    different work-items share no cell, so the plain stores of that build
    never meet in one cell. *)
Theorem disjoint_windows_share_no_cell (gid1 gid2 p : Z) :
  well_formed g → (SLIDE_X g >= KX g)%Z → (SLIDE_Y g >= KY g)%Z →
  (0 ≤ gid1)%Z → (0 ≤ gid2)%Z →
  p ∈ window_cells g gid1 → p ∈ window_cells g gid2 → gid1 = gid2.
Proof. apply windows_disjoint. Qed.

(** X9.  When the stride is smaller than the kernel along an axis with at
    least two output positions, two neighbouring work-items do share a
    cell: this is the case the atomic build is for. *)
Theorem overlapping_windows_share_a_cell :
  well_formed g →
  ((SLIDE_X g < KX g)%Z → (2 ≤ OUT_SX g)%Z →
     cell g 0 0 (SLIDE_X g) 0 ∈ window_cells g 0 ∧
     cell g 0 0 (SLIDE_X g) 0 ∈ window_cells g (N_CHANNELS g)) ∧
  ((SLIDE_Y g < KY g)%Z → (2 ≤ OUT_SY g)%Z →
     cell g 0 (SLIDE_Y g) 0 0 ∈ window_cells g 0 ∧
     cell g 0 (SLIDE_Y g) 0 0 ∈ window_cells g (OUT_SX g * N_CHANNELS g)).
Proof.
  intros Hwf. pose proof Hwf as [].
  assert (0 < OUT_SX g * N_CHANNELS g)%Z as HM by lia.
  split; intros Hs Hout; split; apply elem_of_window_cells.
  - exists 0%Z, (SLIDE_X g).
    unfold out_row, out_col, out_image, out_channel, window_rows, window_cols.
    rewrite (Z.rem_small 0), (Z.quot_small 0) by lia.
    rewrite !(Z.rem_small 0), !(Z.quot_small 0) by lia.
    rewrite !elem_of_clipped. repeat split; nia.
  - exists 0%Z, (SLIDE_X g).
    unfold out_row, out_col, out_image, out_channel, window_rows, window_cols.
    rewrite (Z.rem_small (N_CHANNELS g)), (Z.quot_small (N_CHANNELS g)) by nia.
    rewrite Z.quot_same, Z.rem_same by lia.
    rewrite !(Z.rem_small 0), !(Z.quot_small 0) by lia.
    rewrite !elem_of_clipped. repeat split; nia.
  - exists (SLIDE_Y g), 0%Z.
    unfold out_row, out_col, out_image, out_channel, window_rows, window_cols.
    rewrite (Z.rem_small 0), (Z.quot_small 0) by lia.
    rewrite !(Z.rem_small 0), !(Z.quot_small 0) by lia.
    rewrite !elem_of_clipped. repeat split; nia.
  - exists (SLIDE_Y g), 0%Z.
    unfold out_row, out_col, out_image, out_channel, window_rows, window_cols.
    rewrite Z.quot_same, Z.rem_same by lia.
    rewrite (Z.rem_small 1), (Z.quot_small 1) by lia.
    rewrite !(Z.rem_small 0), !(Z.quot_small 0) by lia.
    rewrite !elem_of_clipped. repeat split; nia.
Qed.

(** X11.  In the plain-store build the work-items of average-pooling
    backward can run in any order: their windows share no cell, so for
    every permutation of the index range the resulting buffer is that of
    the launch in increasing order. *)
Theorem avg_pooling_any_schedule (err_y err_h : list dtype) (idxs : list nat) :
  well_formed g → (SLIDE_X g >= KX g)%Z → (SLIDE_Y g >= KY g)%Z →
  idxs ≡ₚ seq 0 (length err_y) →
  enqueue (gd_avg_pooling g err_y) (Z.of_nat <$> idxs) err_h
  = run_gd_avg_pooling g err_y err_h.
Proof.
  intros Hwf Hx Hy Hperm. unfold run_gd_avg_pooling, NDRange.
  assert (direct_write g = true) as Hd by (by apply direct_write_true).
  assert (Forall (λ i, i < length err_y)%nat (seq 0 (length err_y))) as Hidx.
  { apply Forall_forall. intros i Hi%elem_of_seq. lia. }
  rewrite !enqueue_avg_scatter; [|done..|by rewrite Hperm].
  apply scatter_direct_schedule; [done| |by rewrite Hperm].
  rewrite avg_stores_cells. apply launch_cells_NoDup; [done..|].
  rewrite Hperm. apply NoDup_seq.
Qed.

(** X18.  With plain stores the launch of average-pooling backward writes
    only cells under some window: every other cell keeps what it held.
    When the stride exceeds the kernel there are such cells (column [KX] of
    the first row, for one), so stale contents of [err_h] survive there. *)
Theorem avg_pooling_direct_gaps_keep_stale (err_y err_h r : list dtype) :
  well_formed g → (SLIDE_X g >= KX g)%Z → (SLIDE_Y g >= KY g)%Z →
  run_gd_avg_pooling g err_y err_h = Some r →
  (∀ p, (∀ gid, (gid < length err_y)%nat →
                Z.of_nat p ∉ window_cells g (Z.of_nat gid)) →
        r !! p = err_h !! p) ∧
  ((SLIDE_X g > KX g)%Z → (KX g < SX g)%Z →
   r !! Z.to_nat (cell g 0 0 (KX g) 0) = err_h !! Z.to_nat (cell g 0 0 (KX g) 0)).
Proof.
  intros Hwf Hx Hy Hr.
  assert (direct_write g = true) as Hd by (by apply direct_write_true).
  unfold run_gd_avg_pooling, NDRange in Hr.
  assert (Forall (λ i, i < length err_y)%nat (seq 0 (length err_y))) as Hidx.
  { apply Forall_forall. intros i Hi%elem_of_seq. lia. }
  rewrite enqueue_avg_scatter in Hr by done.
  assert (Forall (λ q : Z * dtype, 0 ≤ q.1 < Z.of_nat (length err_h))%Z
            (seq 0 (length err_y) ≫= avg_stores g err_y)) as Hps
    by (apply (scatter_is_Some g); eauto).
  destruct (scatter_direct g _ err_h Hd Hps) as (r' & Hr' & _ & Hframe & _).
  rewrite Hr' in Hr. simplify_eq. rewrite avg_stores_cells in Hframe.
  assert (∀ p, (∀ gid, (gid < length err_y)%nat →
                       Z.of_nat p ∉ window_cells g (Z.of_nat gid)) →
               r !! p = err_h !! p) as Hout.
  { intros p Hp. apply Hframe. intros (gid & Hin & Hgid%elem_of_seq)%list_elem_of_bind.
    apply (Hp gid); [lia|done]. }
  split; [done|]. intros Hgap HK. apply Hout. intros gid _ Hin.
  pose proof Hwf as [].
  assert (0 ≤ cell g 0 0 (KX g) 0)%Z as Hnn by (unfold cell; nia).
  rewrite Z2Nat.id in Hin by done.
  apply elem_of_window_cells in Hin as (y & x & Hyr & Hxc & Hc).
  destruct (decode_bounds g (Z.of_nat gid) Hwf) as (Hpx & Hch & Hoy & Hb); [lia|].
  pose proof (window_rows_range g _ _ (proj1 Hoy) wf_SLIDE_Y0 Hyr) as Hyb.
  pose proof (window_cols_range g _ _ (proj1 Hpx) wf_SLIDE_X0 Hxc) as Hxb.
  unfold cell in Hc.
  apply radix_unique in Hc as [Hc _]; [|lia..].
  apply radix_unique in Hc as [_ Hxeq]; [|lia..].
  unfold window_cols in Hxc. apply elem_of_clipped in Hxc. subst x.
  destruct (decide (out_col g (Z.of_nat gid) = 0%Z)) as [Hz|Hz].
  - rewrite Hz in Hxc. lia.
  - assert (1 ≤ out_col g (Z.of_nat gid))%Z by lia. nia.
Qed.

End AvgPoolingMore.

(** ** The weight update: the column of the orthogonality term *)

Section GradientMore.
Import GradientDescent.

(** X12.  The column handed to [gradient_step_ortho] stays inside the
    column sums: below [n] for transposed weights of [n] rows of [Y]
    entries, below [H] for weights that are not transposed. *)
Theorem ortho_column_in_range (c : Config) (idx n : Z) :
  (0 ≤ idx)%Z →
  ((WEIGHTS_TRANSPOSED c > 0)%Z → (0 < Y c)%Z → (idx < n * Y c)%Z →
     (0 ≤ ortho_column c idx < n)%Z) ∧
  (¬ (WEIGHTS_TRANSPOSED c > 0)%Z → (0 < H c)%Z →
     (0 ≤ ortho_column c idx < H c)%Z).
Proof.
  intros Hidx. unfold ortho_column. split.
  - intros Ht HY Hn. rewrite decide_True by done. split.
    + apply Z.quot_pos; lia.
    + apply Z.quot_lt_upper_bound; lia.
  - intros Ht HH. rewrite decide_False by done. apply Z.rem_bound_pos; lia.
Qed.

End GradientMore.

(** ** The denormalization kernels, mode by mode *)

Section DenormalizationMore.
Import Denormalization.

(** X13.  Built for [range_linear] with four numbers of which the first two
    differ and the last two differ, the kernel has the two scalars [sub] and
    [mul] the template computes from all four and returns
    [(src - sub) * mul]; it never reads its index and has no failing
    input. *)
Theorem range_linear_kernel (c0 c1 c2 c3 : dtype) (rest : list JValue) :
  c0 ≠ c1 → c2 ≠ c3 →
  ∃ k, build "range_linear" (JNum c0 :: JNum c1 :: JNum c2 :: JNum c3 :: rest)
       = Some (inr k) ∧
       ∀ src index,
         denormalize k src index
         = Some ((src - (c2 * c1 - c3 * c0) / (c2 - c3)) * ((c2 - c3) / (c0 - c1))).
Proof.
  intros H01 H23.
  assert (∀ a b : dtype, a ≠ b → a - b ≠ 0) as Hsub.
  { intros a b Hab Heq. apply Hab. rewrite <-(Qcplus_0_l b), <-Heq. ring. }
  pose proof (Hsub _ _ H01) as Ha. pose proof (Hsub _ _ H23) as Hb.
  unfold build, render_constants. simpl.
  rewrite decide_False by tauto. simpl. eexists. split; [reflexivity|]. done.
Qed.

(** X14.  Built for [pointwise], the kernel takes [mul] from [coeffs[0]]
    and [sub] from [coeffs[1]] and, at an index inside both arrays where
    [mul] is not zero, returns [(src - sub[index]) / mul[index]]; an index
    outside an array is a failure. *)
Theorem pointwise_kernel (mul sub : list dtype) (rest : list JValue) :
  ∃ k, build "pointwise" (JList mul :: JList sub :: rest) = Some (inr k) ∧
       (∀ src index m s,
          Buffer.get mul index = Some m → Buffer.get sub index = Some s → m ≠ 0 →
          denormalize k src index = Some ((src - s) / m)) ∧
       (∀ src index,
          Buffer.get mul index = None ∨ Buffer.get sub index = None →
          denormalize k src index = None).
Proof.
  unfold build, render_constants. simpl. eexists. split; [reflexivity|]. split.
  - intros src index m s Hm Hs Hne. simpl. rewrite Hm, Hs. simpl.
    by rewrite decide_False by done.
  - intros src index [Hn|Hn]; simpl; rewrite Hn; simpl; [|done].
    by destruct (Buffer.get sub index).
Qed.

(** X15.  Built for [mean_disp], the kernel takes [mean] from [coeffs[0]]
    and [disp] from [coeffs[1]] and, at an index inside both arrays,
    returns [src * disp[index] + mean[index]]; an index outside an array is
    a failure. *)
Theorem mean_disp_kernel (mean disp : list dtype) (rest : list JValue) :
  ∃ k, build "mean_disp" (JList mean :: JList disp :: rest) = Some (inr k) ∧
       (∀ src index m d,
          Buffer.get mean index = Some m → Buffer.get disp index = Some d →
          denormalize k src index = Some (src * d + m)) ∧
       (∀ src index,
          Buffer.get mean index = None ∨ Buffer.get disp index = None →
          denormalize k src index = None).
Proof.
  unfold build, render_constants. simpl. eexists. split; [reflexivity|]. split.
  - intros src index m d Hm Hd. simpl. by rewrite Hm, Hd.
  - intros src index [Hn|Hn]; simpl; rewrite Hn; simpl;
      [by destruct (Buffer.get disp index)|done].
Qed.

End DenormalizationMore.

(** ** The test fixture: lazily created shared objects *)

Section WorkflowTestFacts.
Import WorkflowTest.
Context (k : Constants).

Lemma call_set (a : Accessor) (f : Fixture) (p : nat) :
  member a f = Some p → call k a f = (p, f).
Proof. destruct a; simpl; unfold workflow, input, output; by intros ->. Qed.

Lemma call_unset (a : Accessor) (f : Fixture) :
  member a f = None →
  (call k a f).1 = length (heap f) ∧
  heap (call k a f).2 = heap f ++ [created k a] ∧
  member a (call k a f).2 = Some (length (heap f)) ∧
  ∀ b, b ≠ a → member b (call k a f).2 = member b f.
Proof.
  destruct a; simpl; unfold workflow, input, output; intros ->; simpl;
    (split; [done|]); (split; [done|]); (split; [done|]);
    intros []; simpl; done.
Qed.

Lemma call_consistent (a : Accessor) (f : Fixture) :
  consistent k f → consistent k (call k a f).2.
Proof.
  intros [Hown Hsep]. destruct (member a f) as [p|] eqn:Ha.
  { by rewrite (call_set a f p Ha). }
  destruct (call_unset a f Ha) as (_ & Hheap & Hmem & Hframe).
  assert (∀ b q, b ≠ a → member b (call k a f).2 = Some q →
                 member b f = Some q ∧ (q < length (heap f))%nat) as Hold.
  { intros b q Hb Hq. rewrite (Hframe b Hb) in Hq. split; [done|].
    eapply lookup_lt_Some, Hown, Hq. }
  split.
  - intros b q Hq. rewrite Hheap. destruct (decide (b = a)) as [->|Hb].
    + rewrite Hmem in Hq. simplify_eq.
      rewrite lookup_app_r by lia. by rewrite Nat.sub_diag.
    + destruct (Hold b q Hb Hq) as [Hq' Hlt].
      rewrite lookup_app_l by done. by apply Hown.
  - intros b c q Hb Hc.
    destruct (decide (b = a)) as [->|Hba], (decide (c = a)) as [->|Hca]; [done| | |].
    + rewrite Hmem in Hb. simplify_eq. destruct (Hold c _ Hca Hc). lia.
    + rewrite Hmem in Hc. simplify_eq. destruct (Hold b _ Hba Hb). lia.
    + destruct (Hold b q Hba Hb), (Hold c q Hca Hc). by eapply Hsep.
Qed.

Lemma calls_consistent (l : list Accessor) (f : Fixture) :
  consistent k f → consistent k (calls k l f).
Proof.
  revert f. induction l as [|a l IH]; intros f Hf; [done|].
  apply IH. by apply call_consistent.
Qed.

Lemma fresh_consistent : consistent k fresh.
Proof. split; intros []; simpl; intros; done. Qed.

(** X16.  An accessor of the fixture creates its object on first use only:
    a call leaves its member set to the pointer it returns, a second call
    returns that pointer again and changes nothing, the other members are
    not touched, and objects already on the heap stay where they are, at
    most one being added. *)
Theorem accessor_creates_once (a : Accessor) (f : Fixture) :
  let p := (call k a f).1 in
  let f1 := (call k a f).2 in
  member a f1 = Some p ∧
  call k a f1 = (p, f1) ∧
  (∀ b, b ≠ a → member b f1 = member b f) ∧
  heap f `prefix_of` heap f1 ∧
  (length (heap f1) ≤ S (length (heap f)))%nat ∧
  (is_Some (member a f) → f1 = f).
Proof.
  intros p f1. subst p f1. destruct (member a f) as [p|] eqn:Ha.
  - rewrite (call_set a f p Ha). simpl. rewrite (call_set a f p Ha).
    repeat split; try done. lia.
  - destruct (call_unset a f Ha) as (Hp & Hheap & Hmem & Hframe).
    rewrite Hp. split; [done|]. split.
    { rewrite (call_set a _ _ Hmem). by rewrite <-Hp, <-surjective_pairing. }
    split; [done|]. rewrite Hheap. split; [by apply prefix_app_r|].
    split; [rewrite length_app; simpl; lia|]. by intros [? ?].
Qed.

(** X17.  After any sequence of accessor calls on a fresh fixture, two
    different accessors return different pointers, each to the object that
    accessor creates: the workflow, the input array of [kInputsLinear]
    cells and the output array of [kOutputsTanh] cells are never shared. *)
Theorem accessors_never_alias (l : list Accessor) (a b : Accessor) :
  a ≠ b →
  let f := calls k l fresh in
  let r1 := call k a f in
  let r2 := call k b r1.2 in
  r1.1 ≠ r2.1 ∧
  heap r2.2 !! r1.1 = Some (created k a) ∧
  heap r2.2 !! r2.1 = Some (created k b).
Proof.
  intros Hab f r1 r2.
  pose proof (calls_consistent l fresh fresh_consistent) as Hf. fold f in Hf.
  pose proof (call_consistent a f Hf) as Hf1. fold r1 in Hf1.
  pose proof (call_consistent b r1.2 Hf1) as [Hown Hsep]. fold r2 in Hown, Hsep.
  assert (member a r1.2 = Some r1.1) as Ha.
  { subst r1. destruct (member a f) as [p|] eqn:Hm.
    - by rewrite (call_set a f p Hm).
    - destruct (call_unset a f Hm) as (-> & _ & -> & _). done. }
  assert (member b r2.2 = Some r2.1) as Hb.
  { subst r2. destruct (member b r1.2) as [p|] eqn:Hm.
    - by rewrite (call_set b _ p Hm).
    - destruct (call_unset b _ Hm) as (-> & _ & -> & _). done. }
  assert (member a r2.2 = Some r1.1) as Ha2.
  { subst r2. destruct (member b r1.2) as [p|] eqn:Hm.
    - by rewrite (call_set b _ p Hm).
    - destruct (call_unset b _ Hm) as (_ & _ & _ & Hframe). by rewrite Hframe. }
  split; [|split; [by apply Hown|by apply Hown]].
  intros Heq. apply Hab. apply (Hsep a b r1.1); [done|by rewrite Heq].
Qed.

End WorkflowTestFacts.

(** * The further properties at concrete inputs *)

Section MoreInstances.
Import Pooling GradientDescent Denormalization WorkflowTest.

(** Three windows of width 3 at stride 2 over 5 columns: they overlap. *)
Lemma overlapping_geometry_wf : well_formed (mkGeometry 5 1 1 3 1 2 1 3 1).
Proof. constructor; simpl; lia. Qed.

(** Two windows of width 2 at stride 2 over 4 columns: they tile the input. *)
Lemma tiling_geometry_wf : well_formed (mkGeometry 4 1 1 2 1 2 1 2 1).
Proof. constructor; simpl; lia. Qed.

(** Three windows of width 1 at stride 2 over 5 columns: they leave gaps. *)
Lemma sparse_geometry_wf : well_formed (mkGeometry 5 1 1 1 1 2 1 3 1).
Proof. constructor; simpl; lia. Qed.

Lemma max_pooling_launch_in_bounds_witness :
  is_Some (run_gd_max_pooling (mkGeometry 4 1 1 2 1 2 1 2 1)
             (Qc_of_Z <$> [5; 7]%Z) [1; 2]%Z (Qc_of_Z <$> [9; 9; 9; 9]%Z)).
Proof.
  destruct (max_pooling_launch_in_bounds (mkGeometry 4 1 1 2 1 2 1 2 1)
              (Qc_of_Z <$> [5; 7]%Z) [1; 2]%Z (Qc_of_Z <$> [9; 9; 9; 9]%Z))
    as [[_ Hin] _]; [reflexivity|].
  apply Hin. repeat constructor; simpl; lia.
Defined.

Lemma max_pooling_any_schedule_witness :
  enqueue (gd_max_pooling (mkGeometry 5 1 1 3 1 2 1 3 1)
             (Qc_of_Z <$> [1; 2]%Z) [2; 4]%Z)
          (Z.of_nat <$> [1; 0]%nat) (Buffer.zeros 5)
  = run_gd_max_pooling (mkGeometry 5 1 1 3 1 2 1 3 1)
      (Qc_of_Z <$> [1; 2]%Z) [2; 4]%Z (Buffer.zeros 5).
Proof.
  apply max_pooling_any_schedule;
    [reflexivity | apply perm_swap | by_computation].
Defined.

Lemma max_pooling_direct_one_writer_survives_witness :
  ∃ r, enqueue (gd_max_pooling (mkGeometry 4 1 1 2 1 2 1 2 1)
                  (Qc_of_Z <$> [5; 7]%Z) [1; 1]%Z)
               (Z.of_nat <$> [1; 0]%nat) (Qc_of_Z <$> [9; 9; 9; 9]%Z) = Some r ∧
       ∃ j', [1; 1]%Z !! j' = Some 1%Z ∧
             r !! 1%nat = (Qc_of_Z <$> [5; 7]%Z) !! j'.
Proof.
  destruct (max_pooling_direct_one_writer_survives (mkGeometry 4 1 1 2 1 2 1 2 1)
              (Qc_of_Z <$> [5; 7]%Z) [1; 1]%Z [1; 0]%nat (Qc_of_Z <$> [9; 9; 9; 9]%Z))
    as (r & Hr & Hone);
    [simpl; lia | simpl; lia | reflexivity | repeat constructor; simpl; lia
    | apply perm_swap |].
  exists r. split; [done|]. apply (Hone 0%nat 1%Z). reflexivity.
Defined.

Lemma avg_pooling_divisor_bounds_witness :
  (1 ≤ NY (mkGeometry 5 1 1 3 1 2 1 3 1) 0 * NX (mkGeometry 5 1 1 3 1 2 1 3 1) 2 ≤ 1 * 3)%Z.
Proof.
  apply (proj1 (avg_pooling_divisor_bounds (mkGeometry 5 1 1 3 1 2 1 3 1) 2
                  overlapping_geometry_wf ltac:(lia))).
Defined.

Lemma avg_pooling_item_in_bounds_witness :
  is_Some (gd_avg_pooling (mkGeometry 5 1 1 3 1 2 1 3 1)
             (Qc_of_Z <$> [6; 6; 6]%Z) 2 (Buffer.zeros 5)).
Proof.
  destruct (avg_pooling_item_in_bounds (mkGeometry 5 1 1 3 1 2 1 3 1)
              (Qc_of_Z <$> [6; 6; 6]%Z) (Buffer.zeros 5) 2 overlapping_geometry_wf)
    as [[_ Hin] _]; [simpl; lia|].
  apply Hin. by_computation.
Defined.

Lemma avg_pooling_item_own_image_witness :
  (0 * (1 * 5 * 1) ≤ 4 < (0 + 1) * (1 * 5 * 1))%Z ∧ Z.rem 4 1 = 0%Z.
Proof.
  apply (avg_pooling_item_own_image (mkGeometry 5 1 1 3 1 2 1 3 1) 2 4
           overlapping_geometry_wf); [lia | by_computation].
Defined.

Lemma disjoint_windows_share_no_cell_witness : 1%Z = 1%Z.
Proof.
  apply (disjoint_windows_share_no_cell (mkGeometry 4 1 1 2 1 2 1 2 1) 1 1 2
           tiling_geometry_wf); [simpl; lia | simpl; lia | lia | lia | by_computation..].
Defined.

Lemma overlapping_windows_share_a_cell_witness :
  2%Z ∈ window_cells (mkGeometry 5 1 1 3 1 2 1 3 1) 0 ∧
  2%Z ∈ window_cells (mkGeometry 5 1 1 3 1 2 1 3 1) 1.
Proof.
  apply (proj1 (overlapping_windows_share_a_cell (mkGeometry 5 1 1 3 1 2 1 3 1)
                  overlapping_geometry_wf)); simpl; lia.
Defined.

Lemma avg_pooling_any_schedule_witness :
  enqueue (gd_avg_pooling (mkGeometry 4 1 1 2 1 2 1 2 1) (Qc_of_Z <$> [6; 3]%Z))
          (Z.of_nat <$> [1; 0]%nat) (Buffer.zeros 4)
  = run_gd_avg_pooling (mkGeometry 4 1 1 2 1 2 1 2 1)
      (Qc_of_Z <$> [6; 3]%Z) (Buffer.zeros 4).
Proof.
  apply avg_pooling_any_schedule;
    [apply tiling_geometry_wf | simpl; lia | simpl; lia | apply perm_swap].
Defined.

Lemma avg_pooling_direct_gaps_keep_stale_witness :
  (Qc_of_Z <$> [6; 9; 6; 9; 6]%Z) !! 1%nat = (Qc_of_Z <$> [9; 9; 9; 9; 9]%Z) !! 1%nat.
Proof.
  apply (proj2 (avg_pooling_direct_gaps_keep_stale (mkGeometry 5 1 1 1 1 2 1 3 1)
                  (Qc_of_Z <$> [6; 6; 6]%Z) (Qc_of_Z <$> [9; 9; 9; 9; 9]%Z)
                  (Qc_of_Z <$> [6; 9; 6; 9; 6]%Z) sparse_geometry_wf
                  ltac:(simpl; lia) ltac:(simpl; lia) ltac:(by_computation)));
    simpl; lia.
Defined.

Lemma ortho_column_in_range_witness :
  (0 ≤ ortho_column (mkConfig 1 1 4 2) 5 < 3)%Z.
Proof.
  apply (proj1 (ortho_column_in_range (mkConfig 1 1 4 2) 5 3 ltac:(lia)));
    simpl; lia.
Defined.

Lemma range_linear_kernel_witness :
  ∃ k, build "range_linear"
         [JNum 1; JNum 0; JNum (Qc_of_Z 255); JNum 0] = Some (inr k) ∧
       denormalize k 1 7
       = Some ((1 - (Qc_of_Z 255 * 0 - 0 * 1) / (Qc_of_Z 255 - 0))
               * ((Qc_of_Z 255 - 0) / (1 - 0))).
Proof.
  destruct (range_linear_kernel 1 0 (Qc_of_Z 255) 0 [])
    as (k & Hk & Hv); [by_computation | by_computation |].
  exists k. split; [done|]. apply Hv.
Defined.

Lemma pointwise_kernel_witness :
  ∃ k, build "pointwise" [JList (Qc_of_Z <$> [2; 4]%Z); JList (Qc_of_Z <$> [1; 1]%Z)]
       = Some (inr k) ∧
       denormalize k (Qc_of_Z 5) 1 = Some ((Qc_of_Z 5 - Qc_of_Z 1) / Qc_of_Z 4).
Proof.
  destruct (pointwise_kernel (Qc_of_Z <$> [2; 4]%Z) (Qc_of_Z <$> [1; 1]%Z) [])
    as (k & Hk & Hv & _).
  exists k. split; [done|].
  apply (Hv (Qc_of_Z 5) 1%Z (Qc_of_Z 4) (Qc_of_Z 1));
    [reflexivity | reflexivity | by_computation].
Defined.

Lemma mean_disp_kernel_witness :
  ∃ k, build "mean_disp" [JList (Qc_of_Z <$> [3; 3]%Z); JList (Qc_of_Z <$> [2; 4]%Z)]
       = Some (inr k) ∧
       denormalize k (Qc_of_Z 5) 1 = Some (Qc_of_Z 5 * Qc_of_Z 4 + Qc_of_Z 3).
Proof.
  destruct (mean_disp_kernel (Qc_of_Z <$> [3; 3]%Z) (Qc_of_Z <$> [2; 4]%Z) [])
    as (k & Hk & Hv & _).
  exists k. split; [done|].
  apply (Hv (Qc_of_Z 5) 1%Z (Qc_of_Z 3) (Qc_of_Z 4)); reflexivity.
Defined.

Lemma accessor_creates_once_witness :
  let k := mkConstants 2 3 0 1 (λ n v, replicate n v) in
  member Get_workflow (call k Get_input fresh).2 = None ∧
  (call k Get_input (call k Get_input fresh).2).2 = (call k Get_input fresh).2.
Proof.
  intros k. split.
  - destruct (accessor_creates_once k Get_input fresh) as (_ & _ & Hframe & _).
    by rewrite Hframe.
  - destruct (accessor_creates_once k Get_input (call k Get_input fresh).2)
      as (_ & _ & _ & _ & _ & Hset).
    apply Hset. by eexists.
Defined.

Lemma accessors_never_alias_witness :
  let k := mkConstants 2 3 0 1 (λ n v, replicate n v) in
  let f := calls k [Get_output] fresh in
  (call k Get_input f).1 ≠ (call k Get_workflow (call k Get_input f).2).1.
Proof.
  intros k f.
  apply (accessors_never_alias k [Get_output] Get_input Get_workflow). done.
Defined.

End MoreInstances.
